(** * api_task: token authentication and the per-user post cache

    A shallow embedding of [src/api_task.py], [src/models/models.py] and
    [src/pydantic_schemas/pydantic_schemas.py].

    - The two tables are lists of rows kept in rowid order; a query is a
      [filter] ([.all()]) or a [find] ([.first()]) over the table.
    - The module-level [post_cache] and the database are the two fields of
      an explicit [world] that every handler threads through.
    - Handlers run in a state-and-exception monad: a raised exception keeps
      whatever was committed before it.
    - Both clocks are inputs of a request: [utcnow] is what
      [datetime.datetime.now(datetime.UTC)] answers, [monotonic] what the
      cache's timer answers.  They are whole seconds (the resolution of a
      token's expiry), and a request reads each clock at one instant.
    - The two libraries the program leans on, the token library and
      [cachetools.TTLCache], are embedded by what their operations do:
      tokens symbolically, the cache as its list of links. *)

From Stdlib Require Import ZArith List String Ascii Bool Lia FinFun.
Import ListNotations.

Local Open Scope string_scope.
Local Open Scope list_scope.
Local Open Scope Z_scope.

(** ** Exceptions and the handler monad *)

Inductive jwt_error : Type :=
| ExpiredSignatureError
| InvalidSignatureError
| InvalidAlgorithmError
| DecodeError.

Inductive exn : Type :=
| HTTPException (status_code : Z) (detail : string)
| RequestValidationError
| KeyError
| ValueError.

Inductive result (A : Type) : Type :=
| Return (a : A)
| Raise (e : exn).

Arguments Return {A} a.
Arguments Raise {A} e.

(** ** models.py *)

Module User.
Record t : Type := { id : Z; email : string; password : string }.
End User.

Module Post.
Record t : Type := { id : Z; text : string; owner_id : Z }.
End Post.

(** The database behind a [Session]: the rows of [users] and of [posts]. *)
Record database : Type := { users : list User.t; posts : list Post.t }.

Definition empty_database : database := {| users := []; posts := [] |}.

(** [db.query(Post).filter(Post.owner_id == owner).all()]: the posts of
    one owner, in table order. *)
Definition posts_of (d : database) (owner : Z) : list Post.t :=
  filter (fun p => Post.owner_id p =? owner) (posts d).

(** An [Integer] primary key on SQLite is the rowid: a row inserted
    without one gets 1 in an empty table and the largest rowid plus one
    otherwise. *)
Definition next_rowid (ids : list Z) : Z :=
  match ids with
  | [] => 1
  | i :: rest => fold_left Z.max rest i + 1
  end.

(** ** pydantic_schemas.py *)

(** [len] of a Python [str]. *)
Definition len (s : string) : Z := Z.of_nat (String.length s).

(** [constr(min_length=..., max_length=...)]: [None] leaves a side
    unconstrained. *)
Definition constr (min_length max_length : option Z) (s : string) : bool :=
  match min_length with Some m => m <=? len s | None => true end
  && match max_length with Some m => len s <=? m | None => true end.

Module UserCreate.
Record t : Type := { email : string; password : string }.
End UserCreate.

Module UserLogin.
Record t : Type := { email : string; password : string }.
End UserLogin.

Module PostCreate.
Record t : Type := { text : string }.
End PostCreate.

Module PostResponse.
Record t : Type := { id : Z; text : string }.
End PostResponse.

(** What [response_model=List[PostResponse]] keeps of a [Post]. *)
Definition to_response (p : Post.t) : PostResponse.t :=
  {| PostResponse.id := Post.id p; PostResponse.text := Post.text p |}.

Section Validation.
(** [EmailStr] is checked by an external validator, which answers the
    normalised address or rejects. *)
Variable EmailStr : string -> option string.

Definition validate_UserCreate (email password : string) : result UserCreate.t :=
  match EmailStr email with
  | Some e =>
      if constr (Some 6) None password
      then Return {| UserCreate.email := e; UserCreate.password := password |}
      else Raise RequestValidationError
  | None => Raise RequestValidationError
  end.

Definition validate_UserLogin (email password : string) : result UserLogin.t :=
  match EmailStr email with
  | Some e => Return {| UserLogin.email := e; UserLogin.password := password |}
  | None => Raise RequestValidationError
  end.
End Validation.

Definition validate_PostCreate (text : string) : result PostCreate.t :=
  if constr None (Some 1000000) text
  then Return {| PostCreate.text := text |}
  else Raise RequestValidationError.

(** ** The token library, symbolically

    A token string is seen through its parse: either it is not a compact
    JWS at all, or it carries an algorithm name, a claim set and a
    signature.  A signature is the MAC of a header and claim set under a
    key, and verifies only against exactly those (no collisions); any
    other third segment is [Junk].  Of the claim set the program reads
    [sub] and the library reads [exp]; either may be absent.  A subject
    is the integer [create_token] writes, and the library hands it back
    as such. *)

Module jwt.
Record claims : Type := { sub : option Z; exp : option Z }.

Inductive signature : Type :=
| HMAC (key : string) (alg : string) (payload : claims)
| Junk (raw : string).

Inductive token : Type :=
| NotJws (raw : string)
| Jws (alg : string) (payload : claims) (sig : signature).

Definition option_Z_eqb (a b : option Z) : bool :=
  match a, b with
  | Some x, Some y => x =? y
  | None, None => true
  | _, _ => false
  end.

Definition claims_eqb (p q : claims) : bool :=
  option_Z_eqb (sub p) (sub q) && option_Z_eqb (exp p) (exp q).

Definition verifies (sig : signature) (key alg : string) (payload : claims) : bool :=
  match sig with
  | HMAC k a p => String.eqb k key && String.eqb a alg && claims_eqb p payload
  | Junk _ => false
  end.

Definition encode (payload : claims) (key : string) (algorithm : string) : token :=
  Jws algorithm payload (HMAC key algorithm payload).

(** [jwt.decode(token, key, algorithms=...)] at time [now]: the parse,
    the algorithm allow-list and the signature come before the expiry
    check, which rejects [exp <= now]. *)
Definition decode (tok : token) (key : string) (algorithms : list string) (now : Z)
  : jwt_error + claims :=
  match tok with
  | NotJws _ => inl DecodeError
  | Jws alg payload sig =>
      if negb (existsb (String.eqb alg) algorithms) then inl InvalidAlgorithmError
      else if negb (verifies sig key alg payload) then inl InvalidSignatureError
      else match exp payload with
           | Some e => if e <=? now then inl ExpiredSignatureError else inr payload
           | None => inr payload
           end
  end.
End jwt.

(** ** The cache library: [cachetools.TTLCache]

    The links of a cache, least recently used first, each with its expiry
    time.  The timer is monotonic, so the library's walk over its
    expiry-ordered list removes exactly the links that [expire] filters
    out here.  Every value has size 1. *)

Module TTLCache.
Section Cache.
Context {V : Type}.

Record link : Type := { key : Z; value : V; expires : Z }.

Definition t : Type := list link.

Definition empty : t := [].

Variable maxsize : Z.
Variable ttl : Z.

Definition getlink (c : t) (k : Z) : option link :=
  find (fun l => key l =? k) c.

Definition unlink (c : t) (k : Z) : t :=
  filter (fun l => negb (key l =? k)) c.

(** [key in cache]: present and not expired; the order is untouched. *)
Definition contains (c : t) (k : Z) (time : Z) : bool :=
  match getlink c k with
  | Some l => time <? expires l
  | None => false
  end.

(** [cache[key]]: the link moves to the most recently used end; an
    absent or expired key is a [KeyError] ([None]). *)
Definition getitem (c : t) (k : Z) (time : Z) : option V * t :=
  match getlink c k with
  | Some l =>
      let c' := unlink c k ++ [l] in
      if time <? expires l then (Some (value l), c') else (None, c')
  | None => (None, c)
  end.

Definition expire (c : t) (time : Z) : t :=
  filter (fun l => time <? expires l) c.

(** The loop [while currsize + size > maxsize: popitem()], on a cache
    that [expire] has just cleaned: each round drops the least
    recently used link. *)
Fixpoint make_room (c : t) : t :=
  match c with
  | [] => []
  | _ :: rest => if maxsize <? Z.of_nat (List.length c) + 1 then make_room rest else c
  end.

(** [cache[key] = value]: [None] is the [ValueError] of a value larger
    than the cache. *)
Definition setitem (c : t) (k : Z) (v : V) (time : Z) : option t :=
  if maxsize <? 1 then None
  else
    let c1 := expire c time in
    let c2 := match getlink c1 k with
              | Some _ => c1
              | None => make_room c1
              end in
    Some (unlink c2 k ++ [{| key := k; value := v; expires := time + ttl |}]).

(** [cache.pop(key, None)]: deletes only a key that is [in] the cache. *)
Definition pop (c : t) (k : Z) (time : Z) : t :=
  if contains c k time then unlink c k else c.
End Cache.

Arguments link : clear implicits.
Arguments t : clear implicits.
End TTLCache.

(** ** api_task.py *)

Definition SECRET_KEY : string := "".
Definition ALGORITHM : string := "HS256".

Definition maxsize : Z := 100.
Definition ttl : Z := 300.

Record world : Type := {
  db : database;
  post_cache : TTLCache.t (list Post.t)
}.

Definition initial_world : world :=
  {| db := empty_database; post_cache := TTLCache.empty |}.

Record clock : Type := { utcnow : Z; monotonic : Z }.

Definition M (A : Type) : Type := world -> result A * world.

Definition ret {A : Type} (a : A) : M A := fun w => (Return a, w).

Definition raise {A : Type} (e : exn) : M A := fun w => (Raise e, w).

Definition bind {A B : Type} (m : M A) (k : A -> M B) : M B :=
  fun w =>
    match m w with
    | (Return a, w') => k a w'
    | (Raise e, w') => (Raise e, w')
    end.

Declare Scope handler_scope.
Delimit Scope handler_scope with handler.
Notation "x <- m ;; k" := (bind m (fun x => k))
  (at level 100, m at next level, right associativity) : handler_scope.
Notation "m ;; k" := (bind m (fun _ => k))
  (at level 100, right associativity) : handler_scope.

Definition create_token (user_id : Z) (now : Z) : jwt.token :=
  let payload := {| jwt.sub := Some user_id; jwt.exp := Some (now + 3600) |} in
  jwt.encode payload SECRET_KEY ALGORITHM.

Definition verify_token (token : jwt.token) (now : Z) (d : database) : result User.t :=
  match jwt.decode token SECRET_KEY [ALGORITHM] now with
  | inr payload =>
      match jwt.sub payload with
      | Some sub =>
          match find (fun u => User.id u =? sub) (users d) with
          | Some user => Return user
          | None => Raise (HTTPException 401 "Invalid token")
          end
      | None => Raise KeyError
      end
  | inl ExpiredSignatureError => Raise (HTTPException 401 "Token expired")
  | inl _ => Raise (HTTPException 401 "Invalid token")
  end.

(** The steps of a handler on the world. *)

Definition authenticate (token : jwt.token) (clk : clock) : M User.t :=
  fun w => (verify_token token (utcnow clk) (db w), w).

Definition query_user_by_email (email : string) : M (option User.t) :=
  fun w => (Return (find (fun u => String.eqb (User.email u) email) (users (db w))), w).

Definition query_user_by_credentials (email password : string) : M (option User.t) :=
  fun w =>
    (Return (find (fun u => String.eqb (User.email u) email
                            && String.eqb (User.password u) password)
                  (users (db w))), w).

Definition query_post (postID owner : Z) : M (option Post.t) :=
  fun w =>
    (Return (find (fun p => (Post.id p =? postID) && (Post.owner_id p =? owner))
                  (posts (db w))), w).

Definition query_posts_of (owner : Z) : M (list Post.t) :=
  fun w => (Return (posts_of (db w) owner), w).

(** [db.add(row); db.commit(); db.refresh(row)]. *)
Definition insert_user (email password : string) : M User.t :=
  fun w =>
    let row := {| User.id := next_rowid (map User.id (users (db w)));
                  User.email := email; User.password := password |} in
    (Return row,
     {| db := {| users := users (db w) ++ [row]; posts := posts (db w) |};
        post_cache := post_cache w |}).

Definition insert_post (text : string) (owner : Z) : M Post.t :=
  fun w =>
    let row := {| Post.id := next_rowid (map Post.id (posts (db w)));
                  Post.text := text; Post.owner_id := owner |} in
    (Return row,
     {| db := {| users := users (db w); posts := posts (db w) ++ [row] |};
        post_cache := post_cache w |}).

(** [db.delete(post); db.commit()]: the row is deleted by primary key. *)
Definition delete_row (post : Post.t) : M unit :=
  fun w =>
    (Return tt,
     {| db := {| users := users (db w);
                 posts := filter (fun p => negb (Post.id p =? Post.id post)) (posts (db w)) |};
        post_cache := post_cache w |}).

Definition cache_contains (k : Z) (clk : clock) : M bool :=
  fun w => (Return (TTLCache.contains (post_cache w) k (monotonic clk)), w).

Definition cache_getitem (k : Z) (clk : clock) : M (list Post.t) :=
  fun w =>
    match TTLCache.getitem (post_cache w) k (monotonic clk) with
    | (Some v, c) => (Return v, {| db := db w; post_cache := c |})
    | (None, c) => (Raise KeyError, {| db := db w; post_cache := c |})
    end.

Definition cache_setitem (k : Z) (v : list Post.t) (clk : clock) : M unit :=
  fun w =>
    match TTLCache.setitem maxsize ttl (post_cache w) k v (monotonic clk) with
    | Some c => (Return tt, {| db := db w; post_cache := c |})
    | None => (Raise ValueError, w)
    end.

Definition cache_pop (k : Z) (clk : clock) : M unit :=
  fun w =>
    (Return tt, {| db := db w; post_cache := TTLCache.pop (post_cache w) k (monotonic clk) |}).

Local Open Scope handler_scope.

(** [POST /signup]; the answer is the value under ["token"]. *)
Definition signup (user : UserCreate.t) (clk : clock) : M jwt.token :=
  taken <- query_user_by_email (UserCreate.email user) ;;
  match taken with
  | Some _ => raise (HTTPException 400 "Email already registered")
  | None =>
      new_user <- insert_user (UserCreate.email user) (UserCreate.password user) ;;
      ret (create_token (User.id new_user) (utcnow clk))
  end.

(** [POST /login]. *)
Definition login (user : UserLogin.t) (clk : clock) : M jwt.token :=
  user_record <- query_user_by_credentials (UserLogin.email user) (UserLogin.password user) ;;
  match user_record with
  | None => raise (HTTPException 400 "Invalid credentials")
  | Some u => ret (create_token (User.id u) (utcnow clk))
  end.

(** [POST /addpost]; the answer is the value under ["postID"]. *)
Definition add_post (post : PostCreate.t) (token : jwt.token) (clk : clock) : M Z :=
  user <- authenticate token clk ;;
  new_post <- insert_post (PostCreate.text post) (User.id user) ;;
  cache_pop (User.id user) clk ;;
  ret (Post.id new_post).

(** [GET /getposts]. *)
Definition get_posts (token : jwt.token) (clk : clock) : M (list PostResponse.t) :=
  user <- authenticate token clk ;;
  hit <- cache_contains (User.id user) clk ;;
  if hit then
    cached <- cache_getitem (User.id user) clk ;;
    ret (map to_response cached)
  else
    posts <- query_posts_of (User.id user) ;;
    cache_setitem (User.id user) posts clk ;;
    ret (map to_response posts).

(** [DELETE /deletepost]; the answer is the value under ["detail"]. *)
Definition delete_post (postID : Z) (token : jwt.token) (clk : clock) : M string :=
  user <- authenticate token clk ;;
  post <- query_post postID (User.id user) ;;
  match post with
  | None => raise (HTTPException 404 "Post not found")
  | Some p =>
      delete_row p ;;
      cache_pop (User.id user) clk ;;
      ret "Post deleted"
  end.

Local Close Scope handler_scope.

(** FastAPI validates a request body against its schema before the
    handler runs, and answers 422 without calling it otherwise. *)
Definition POST_signup (EmailStr : string -> option string)
    (email password : string) (clk : clock) : M jwt.token :=
  match validate_UserCreate EmailStr email password with
  | Return user => signup user clk
  | Raise e => raise e
  end.

Definition POST_addpost (text : string) (token : jwt.token) (clk : clock) : M Z :=
  match validate_PostCreate text with
  | Return post => add_post post token clk
  | Raise e => raise e
  end.

(** ** Sequences of requests *)

Inductive request : Type :=
| Signup (user : UserCreate.t)
| Login (user : UserLogin.t)
| AddPost (post : PostCreate.t) (token : jwt.token)
| GetPosts (token : jwt.token)
| DeletePost (postID : Z) (token : jwt.token).

(** The world a request leaves behind, whatever it answers. *)
Definition serve (r : request) (clk : clock) (w : world) : world :=
  match r with
  | Signup user => snd (signup user clk w)
  | Login user => snd (login user clk w)
  | AddPost post token => snd (add_post post token clk w)
  | GetPosts token => snd (get_posts token clk w)
  | DeletePost postID token => snd (delete_post postID token clk w)
  end.

Fixpoint serve_all (rs : list (request * clock)) (w : world) : world :=
  match rs with
  | [] => w
  | (r, clk) :: rest => serve_all rest (serve r clk w)
  end.

(** The cache's timer never runs backwards from one request to the next. *)
Fixpoint timer_monotone (start : Z) (rs : list (request * clock)) : Prop :=
  match rs with
  | [] => True
  | (_, clk) :: rest => start <= monotonic clk /\ timer_monotone (monotonic clk) rest
  end.

Fixpoint last_time (start : Z) (rs : list (request * clock)) : Z :=
  match rs with
  | [] => start
  | (_, clk) :: rest => last_time (monotonic clk) rest
  end.

(** ** Vocabulary of the properties *)

(** The primary keys of both tables are unique. *)
Definition db_wf (d : database) : Prop :=
  NoDup (map User.id (users d)) /\ NoDup (map Post.id (posts d)).


(** A cache built by the library: one link per key, at most [maxsize]. *)
Definition cache_wf {V : Type} (c : TTLCache.t V) : Prop :=
  NoDup (map TTLCache.key c) /\ Z.of_nat (List.length c) <= maxsize.

(** Every list the cache would still serve at [time] is what the table
    holds for its key. *)
Definition coherent (w : world) (time : Z) : Prop :=
  forall l, In l (post_cache w) -> time < TTLCache.expires l ->
            TTLCache.value l = posts_of (db w) (TTLCache.key l).

(** What holds of every world the handlers can reach by [time]. *)
Definition consistent (w : world) (time : Z) : Prop :=
  db_wf (db w) /\ cache_wf (post_cache w) /\ coherent w time.

(** The three ways a token fails by itself, and the subject it names. *)
Definition malformed (tok : jwt.token) : Prop :=
  match tok with jwt.NotJws _ => True | jwt.Jws _ _ _ => False end.

Definition signature_ok (tok : jwt.token) : bool :=
  match tok with
  | jwt.NotJws _ => false
  | jwt.Jws alg payload sig =>
      existsb (String.eqb alg) [ALGORITHM] && jwt.verifies sig SECRET_KEY alg payload
  end.

Definition bad_signature (tok : jwt.token) : Prop :=
  match tok with
  | jwt.NotJws _ => False
  | jwt.Jws _ _ _ => signature_ok tok = false
  end.

Definition embedded (tok : jwt.token) : option jwt.claims :=
  match tok with jwt.NotJws _ => None | jwt.Jws _ payload _ => Some payload end.

Definition expired (tok : jwt.token) (now : Z) : Prop :=
  exists payload e, embedded tok = Some payload /\ jwt.exp payload = Some e /\ e <= now.



Definition TokenInvalid : exn := HTTPException 401 "Invalid token".
Definition TokenExpired : exn := HTTPException 401 "Token expired".
Definition DuplicateEmail : exn := HTTPException 400 "Email already registered".
Definition PostNotFound : exn := HTTPException 404 "Post not found".


(** ["a" * n]. *)
Fixpoint str_mul (c : ascii) (n : nat) : string :=
  match n with
  | O => EmptyString
  | S n' => String c (str_mul c n')
  end.

(** ** Sample data *)

Definition alice : User.t :=
  {| User.id := 1; User.email := "a@x.com"; User.password := "secret1" |}.

Definition bob : User.t :=
  {| User.id := 2; User.email := "b@x.com"; User.password := "hunter22" |}.

Definition sample_db : database :=
  {| users := [alice; bob];
     posts := [ {| Post.id := 1; Post.text := "hello"; Post.owner_id := 1 |};
                {| Post.id := 2; Post.text := "hi"; Post.owner_id := 2 |};
                {| Post.id := 3; Post.text := "again"; Post.owner_id := 1 |} ] |}.

Definition sample_clock : clock := {| utcnow := 1000; monotonic := 50 |}.

Definition sample_world : world :=
  {| db := sample_db;
     post_cache := [ {| TTLCache.key := 1;
                        TTLCache.value := posts_of sample_db 1;
                        TTLCache.expires := 200 |};
                     {| TTLCache.key := 2;
                        TTLCache.value := posts_of sample_db 2;
                        TTLCache.expires := 300 |} ] |}.

(** A cache with [maxsize] live links, for keys 0 to 99. *)
Definition full_cache : TTLCache.t (list Post.t) :=
  map (fun i => {| TTLCache.key := Z.of_nat i; TTLCache.value := [];
                   TTLCache.expires := 1000 |})
      (seq 0 100).

Definition alice_token : jwt.token := create_token (User.id alice) 1000.

(** ** Vocabulary of the further properties *)

(** No two users share an email: the [unique=True] of the column. *)
Definition emails_unique (d : database) : Prop :=
  NoDup (map User.email (users d)).

(** Every post's [owner_id] is the id of a stored user. *)
Definition owners_exist (d : database) : Prop :=
  forall p, In p (posts d) -> exists u, In u (users d) /\ User.id u = Post.owner_id p.

(** Some stored user has exactly these credentials. *)
Definition registered (d : database) (email password : string) : Prop :=
  exists u, In u (users d) /\ User.email u = email /\ User.password u = password.

Definition InvalidCredentials : exn := HTTPException 400 "Invalid credentials".

(** Correctly signed tokens that [create_token] never writes: one with no
    subject, one with no expiry. *)
Definition subjectless_token (e : Z) : jwt.token :=
  jwt.encode {| jwt.sub := None; jwt.exp := Some e |} SECRET_KEY ALGORITHM.

Definition undated_token (uid : Z) : jwt.token :=
  jwt.encode {| jwt.sub := Some uid; jwt.exp := None |} SECRET_KEY ALGORITHM.

Definition zed : User.t :=
  {| User.id := 100; User.email := "z@x.com"; User.password := "zzzzzz" |}.

Definition zed_token : jwt.token := create_token (User.id zed) 1000.

Definition late_clock : clock := {| utcnow := 1000; monotonic := 500 |}.

(** One user, no post, and the cache full of other users' lists. *)
Definition full_world : world :=
  {| db := {| users := [zed]; posts := [] |}; post_cache := full_cache |}.

Definition carol : UserCreate.t :=
  {| UserCreate.email := "c@x.com"; UserCreate.password := "letmein" |}.

(** * Properties *)

(** ** Tables: rows, primary keys, rowids *)

Section Tables.
Context {A : Type}.
Variable pk : A -> Z.

Lemma find_pk_In (l : list A) (k : Z) (a : A) :
  find (fun x => pk x =? k) l = Some a -> In a l /\ pk a = k.
Proof.
  intros H. apply find_some in H. destruct H as [Hin Hk].
  split; [assumption | now apply Z.eqb_eq].
Qed.

Lemma find_pk_absent (l : list A) (k : Z) :
  ~ In k (map pk l) -> find (fun x => pk x =? k) l = None.
Proof.
  induction l as [| x l IH]; simpl; intros Hk; [reflexivity |].
  destruct (Z.eqb_spec (pk x) k) as [E | _].
  - exfalso. apply Hk. now left.
  - apply IH. intros Hin. apply Hk. now right.
Qed.

Lemma find_pk_unique (l : list A) (a : A) :
  NoDup (map pk l) -> In a l -> find (fun x => pk x =? pk a) l = Some a.
Proof.
  induction l as [| x l IH]; simpl; intros Hnd Hin; [contradiction |].
  inversion Hnd as [| ? ? Hx Hl]; subst.
  destruct Hin as [-> | Hin].
  - now rewrite Z.eqb_refl.
  - destruct (Z.eqb_spec (pk x) (pk a)) as [E | _].
    + exfalso. apply Hx. rewrite E. now apply in_map.
    + now apply IH.
Qed.

Lemma find_pk_app_new (l : list A) (a : A) :
  ~ In (pk a) (map pk l) -> find (fun x => pk x =? pk a) (l ++ [a]) = Some a.
Proof.
  induction l as [| x l IH]; simpl; intros Hk.
  - now rewrite Z.eqb_refl.
  - destruct (Z.eqb_spec (pk x) (pk a)) as [E | _].
    + exfalso. apply Hk. now left.
    + apply IH. intros Hin. apply Hk. now right.
Qed.

(** Deleting by primary key takes exactly one row out of a table whose
    keys are unique. *)
Lemma delete_pk_split (l : list A) (a : A) :
  NoDup (map pk l) -> In a l ->
  exists l1 l2,
    l = l1 ++ a :: l2 /\
    filter (fun x => negb (pk x =? pk a)) l = l1 ++ l2.
Proof.
  induction l as [| x l IH]; simpl; intros Hnd Hin; [contradiction |].
  inversion Hnd as [| ? ? Hx Hl]; subst.
  destruct Hin as [-> | Hin].
  - exists [], l. split; [reflexivity |].
    rewrite Z.eqb_refl. simpl.
    apply forallb_filter_id. apply forallb_forall. intros y Hy.
    destruct (Z.eqb_spec (pk y) (pk a)) as [E | _]; [| reflexivity].
    exfalso. apply Hx. rewrite <- E. now apply in_map.
  - destruct (IH Hl Hin) as (l1 & l2 & E1 & E2).
    exists (x :: l1), l2. split; [simpl; now rewrite E1 |].
    destruct (Z.eqb_spec (pk x) (pk a)) as [E | _].
    + exfalso. apply Hx. rewrite E. now apply in_map.
    + simpl. now rewrite E2.
Qed.
End Tables.

Lemma fold_max_ge (rest : list Z) (i : Z) :
  i <= fold_left Z.max rest i /\
  forall x, In x rest -> x <= fold_left Z.max rest i.
Proof.
  revert i. induction rest as [| y rest IH]; simpl; intros i.
  - split; [lia | contradiction].
  - destruct (IH (Z.max i y)) as [H1 H2]. split; [lia |].
    intros x [-> | Hx]; [lia | now apply H2].
Qed.

Lemma next_rowid_above (ids : list Z) (i : Z) :
  In i ids -> i < next_rowid ids.
Proof.
  destruct ids as [| j rest]; simpl; [contradiction |].
  destruct (fold_max_ge rest j) as [H1 H2].
  intros [<- | Hin]; [lia |]. specialize (H2 _ Hin). lia.
Qed.

Lemma next_rowid_fresh (ids : list Z) : ~ In (next_rowid ids) ids.
Proof. intros H. apply next_rowid_above in H. lia. Qed.

Lemma empty_database_wf : db_wf empty_database.
Proof. split; constructor. Qed.

Lemma NoDup_snoc_fresh (ids : list Z) :
  NoDup ids -> NoDup (ids ++ [next_rowid ids]).
Proof.
  intros H. apply NoDup_app; [assumption | repeat constructor; intros [] |].
  intros a Ha [<- | []]. now apply next_rowid_fresh in Ha.
Qed.

Lemma NoDup_map_filter {A : Type} (f : A -> Z) (p : A -> bool) (l : list A) :
  NoDup (map f l) -> NoDup (map f (filter p l)).
Proof.
  induction l as [| x l IH]; simpl; intros H; [constructor |].
  inversion H as [| ? ? Hx Hl]; subst.
  destruct (p x); simpl; [| now apply IH].
  constructor; [| now apply IH].
  intros Hin. apply Hx. apply in_map_iff in Hin. destruct Hin as (y & Ey & Hy).
  apply filter_In in Hy. rewrite <- Ey. apply in_map. tauto.
Qed.

(** ** Tokens *)

Lemma claims_eqb_eq (p q : jwt.claims) : jwt.claims_eqb p q = true <-> p = q.
Proof.
  destruct p as [s1 e1], q as [s2 e2]. unfold jwt.claims_eqb. simpl.
  rewrite andb_true_iff. split.
  - intros [Hs He].
    destruct s1, s2, e1, e2; simpl in *; try discriminate;
      repeat match goal with H : (_ =? _) = true |- _ => apply Z.eqb_eq in H; subst end;
      reflexivity.
  - intros E. inversion E; subst.
    destruct s2, e2; simpl; rewrite ?Z.eqb_refl; auto.
Qed.

Lemma claims_eqb_refl (p : jwt.claims) : jwt.claims_eqb p p = true.
Proof. now apply claims_eqb_eq. Qed.

Lemma signature_ok_encode (payload : jwt.claims) :
  signature_ok (jwt.encode payload SECRET_KEY ALGORITHM) = true.
Proof. simpl. now rewrite claims_eqb_refl. Qed.

(** What [jwt.decode] answers, by the shape of the token. *)
Lemma decode_signed (tok : jwt.token) (payload : jwt.claims) (now : Z) :
  embedded tok = Some payload -> signature_ok tok = true ->
  jwt.decode tok SECRET_KEY [ALGORITHM] now =
    match jwt.exp payload with
    | Some e => if e <=? now then inl ExpiredSignatureError else inr payload
    | None => inr payload
    end.
Proof.
  destruct tok as [raw | alg p sig]; simpl; [discriminate |].
  intros E H. inversion E; subst. apply andb_true_iff in H. destruct H as [Ha Hs].
  now rewrite Ha, Hs.
Qed.

Lemma decode_bad_signature (tok : jwt.token) (now : Z) :
  bad_signature tok ->
  jwt.decode tok SECRET_KEY [ALGORITHM] now = inl InvalidAlgorithmError \/
  jwt.decode tok SECRET_KEY [ALGORITHM] now = inl InvalidSignatureError.
Proof.
  destruct tok as [raw | alg p sig]; simpl; [contradiction |].
  intros H. apply andb_false_iff in H.
  destruct (String.eqb alg ALGORITHM || false); simpl.
  - destruct H as [H | H]; [discriminate |]. rewrite H. now right.
  - now left.
Qed.

Lemma decode_encode (payload : jwt.claims) (now : Z) :
  jwt.decode (jwt.encode payload SECRET_KEY ALGORITHM) SECRET_KEY [ALGORITHM] now =
    match jwt.exp payload with
    | Some e => if e <=? now then inl ExpiredSignatureError else inr payload
    | None => inr payload
    end.
Proof. apply decode_signed; [reflexivity | apply signature_ok_encode]. Qed.


Lemma verify_token_issued (d : database) (U : User.t) (issued now : Z) :
  NoDup (map User.id (users d)) -> In U (users d) -> now < issued + 3600 ->
  verify_token (create_token (User.id U) issued) now d = Return U.
Proof.
  intros Hnd Hin Hlt. unfold verify_token, create_token.
  rewrite decode_encode. simpl.
  destruct (Z.leb_spec (issued + 3600) now) as [Hle | _]; [lia |]. simpl.
  now rewrite (find_pk_unique User.id _ _ Hnd Hin).
Qed.

Lemma verify_token_issued_expired (d : database) (uid issued now : Z) :
  issued + 3600 <= now ->
  verify_token (create_token uid issued) now d = Raise TokenExpired.
Proof.
  intros Hle. unfold verify_token, create_token.
  rewrite decode_encode. simpl.
  destruct (Z.leb_spec (issued + 3600) now) as [_ | Hlt]; [reflexivity | lia].
Qed.

(** C2. A token issued for a user U of the store embeds subject U and an
    expiry one hour (3600 s) after the time of issue; verified at any time
    before that expiry it resolves to U, and verified at any time after it
    the verification fails with TokenExpired (401). *)
Theorem token_lifetime (d : database) (U : User.t) (issued : Z) :
  NoDup (map User.id (users d)) -> In U (users d) ->
  embedded (create_token (User.id U) issued) =
    Some {| jwt.sub := Some (User.id U); jwt.exp := Some (issued + 3600) |} /\
  (forall now, now < issued + 3600 ->
     verify_token (create_token (User.id U) issued) now d = Return U) /\
  (forall now, issued + 3600 < now ->
     verify_token (create_token (User.id U) issued) now d = Raise TokenExpired).
Proof.
  intros Hnd Hin. split; [reflexivity | split]; intros now Hnow.
  - now apply verify_token_issued.
  - apply verify_token_issued_expired. lia.
Qed.

Lemma token_lifetime_witness :
  NoDup (map User.id (users sample_db)) /\ In alice (users sample_db) /\
  embedded (create_token (User.id alice) 1000) =
    Some {| jwt.sub := Some (User.id alice); jwt.exp := Some (1000 + 3600) |} /\
  (forall now, now < 1000 + 3600 ->
     verify_token (create_token (User.id alice) 1000) now sample_db = Return alice) /\
  (forall now, 1000 + 3600 < now ->
     verify_token (create_token (User.id alice) 1000) now sample_db = Raise TokenExpired).
Proof.
  assert (Hnd : NoDup (map User.id (users sample_db)))
    by (simpl; repeat constructor; simpl; intuition discriminate).
  assert (Hin : In alice (users sample_db)) by (simpl; now left).
  split; [exact Hnd | split; [exact Hin |]].
  exact (token_lifetime sample_db alice 1000 Hnd Hin).
Defined.

(** At the very second of its expiry a token is already refused. *)
Lemma token_refused_at_expiry (d : database) (uid issued : Z) :
  verify_token (create_token uid issued) (issued + 3600) d = Raise TokenExpired.
Proof. apply verify_token_issued_expired. lia. Qed.

Lemma verify_token_malformed (tok : jwt.token) (now : Z) (d : database) :
  malformed tok -> verify_token tok now d = Raise TokenInvalid.
Proof. destruct tok; simpl; [reflexivity | contradiction]. Qed.

Lemma verify_token_bad_signature (tok : jwt.token) (now : Z) (d : database) :
  bad_signature tok -> verify_token tok now d = Raise TokenInvalid.
Proof.
  intros H. unfold verify_token.
  destruct (decode_bad_signature tok now H) as [E | E]; now rewrite E.
Qed.

(** A correctly signed token that carries no subject gets past the
    library, and the lookup of its ["sub"] raises [KeyError], which none of
    the handler's [except] clauses catches. *)
Lemma verify_token_without_subject (d : database) (now e : Z) :
  now < e ->
  verify_token (jwt.encode {| jwt.sub := None; jwt.exp := Some e |} SECRET_KEY ALGORITHM)
               now d = Raise KeyError.
Proof.
  intros Hlt. unfold verify_token. rewrite decode_encode. simpl.
  destruct (Z.leb_spec e now); [lia | reflexivity].
Qed.

Lemma bad_signature_dec (tok : jwt.token) :
  malformed tok \/ bad_signature tok \/
  exists payload, embedded tok = Some payload /\ signature_ok tok = true.
Proof.
  destruct tok as [raw | alg p sig].
  - left. exact I.
  - right. unfold bad_signature.
    destruct (signature_ok (jwt.Jws alg p sig)) eqn:E.
    + right. now exists p.
    + now left.
Qed.





(** ** The cache *)

Section CacheFacts.
Context {V : Type}.
Implicit Types (c : TTLCache.t V) (l : TTLCache.link V) (k time : Z).

Lemma getlink_In c k l :
  TTLCache.getlink c k = Some l -> In l c /\ TTLCache.key l = k.
Proof. apply find_pk_In. Qed.

Lemma getlink_None c k :
  TTLCache.getlink c k = None <-> ~ In k (map TTLCache.key c).
Proof.
  split.
  - intros H Hin. apply in_map_iff in Hin. destruct Hin as (l & E & Hl).
    apply (find_none _ _ H) in Hl. simpl in Hl. apply Z.eqb_neq in Hl. contradiction.
  - apply find_pk_absent.
Qed.

Lemma In_unlink c k l :
  In l (TTLCache.unlink c k) <-> In l c /\ TTLCache.key l <> k.
Proof.
  unfold TTLCache.unlink. rewrite filter_In, negb_true_iff, Z.eqb_neq. tauto.
Qed.

Lemma getlink_unlink c k : TTLCache.getlink (TTLCache.unlink c k) k = None.
Proof.
  apply getlink_None. intros Hin. apply in_map_iff in Hin.
  destruct Hin as (l & E & Hl). apply In_unlink in Hl. tauto.
Qed.

Lemma getlink_snoc c l :
  TTLCache.getlink c (TTLCache.key l) = None ->
  TTLCache.getlink (c ++ [l]) (TTLCache.key l) = Some l.
Proof. intros H. apply find_pk_app_new. now apply getlink_None. Qed.

Lemma In_expire c time l :
  In l (TTLCache.expire c time) <-> In l c /\ time < TTLCache.expires l.
Proof. unfold TTLCache.expire. rewrite filter_In, Z.ltb_lt. tauto. Qed.

Lemma make_room_suffix mx c :
  exists evicted, c = evicted ++ TTLCache.make_room mx c.
Proof.
  induction c as [| l c IH]; [now exists [] |].
  cbn [TTLCache.make_room].
  destruct (mx <? Z.of_nat (List.length (l :: c)) + 1).
  - destruct IH as [ev E]. exists (l :: ev). simpl. now rewrite <- E.
  - now exists [].
Qed.

Lemma In_make_room mx c l : In l (TTLCache.make_room mx c) -> In l c.
Proof.
  destruct (make_room_suffix mx c) as [ev E]. intros H. rewrite E.
  apply in_or_app. now right.
Qed.

Lemma make_room_length mx c :
  1 <= mx -> Z.of_nat (List.length (TTLCache.make_room mx c)) + 1 <= mx.
Proof.
  intros Hmx. induction c as [| l c IH]; [simpl; lia |].
  cbn [TTLCache.make_room].
  destruct (Z.ltb_spec mx (Z.of_nat (List.length (l :: c)) + 1)); [exact IH | lia].
Qed.

(** A full cache loses exactly its least recently used link. *)
Lemma make_room_full mx l c :
  Z.of_nat (List.length (l :: c)) = mx ->
  TTLCache.make_room mx (l :: c) = c.
Proof.
  intros H. cbn [TTLCache.make_room].
  destruct (Z.ltb_spec mx (Z.of_nat (List.length (l :: c)) + 1)) as [_ | Hge]; [| lia].
  destruct c as [| l' c']; [reflexivity |]. cbn [TTLCache.make_room].
  destruct (Z.ltb_spec mx (Z.of_nat (List.length (l' :: c')) + 1)) as [Hlt | _];
    [| reflexivity].
  simpl List.length in *. lia.
Qed.

Lemma setitem_defined mx tt c k (v : V) time :
  1 <= mx -> exists c', TTLCache.setitem mx tt c k v time = Some c'.
Proof.
  intros Hmx. unfold TTLCache.setitem.
  destruct (Z.ltb_spec mx 1); [lia |]. eauto.
Qed.

Lemma getlink_setitem mx tt c k (v : V) time c' :
  TTLCache.setitem mx tt c k v time = Some c' ->
  TTLCache.getlink c' k =
    Some {| TTLCache.key := k; TTLCache.value := v; TTLCache.expires := time + tt |}.
Proof.
  unfold TTLCache.setitem. destruct (mx <? 1); [discriminate |].
  intros E. inversion E; subst. clear E.
  apply (getlink_snoc _ {| TTLCache.key := k; TTLCache.value := v;
                           TTLCache.expires := time + tt |}).
  apply getlink_unlink.
Qed.

Lemma In_setitem mx tt c k (v : V) time c' l :
  TTLCache.setitem mx tt c k v time = Some c' -> In l c' ->
  l = {| TTLCache.key := k; TTLCache.value := v; TTLCache.expires := time + tt |} \/
  (In l c /\ TTLCache.key l <> k /\ time < TTLCache.expires l).
Proof.
  unfold TTLCache.setitem. destruct (mx <? 1); [discriminate |].
  intros E. inversion E; subst. clear E. intros Hin.
  apply in_app_or in Hin. destruct Hin as [Hin | [<- | []]]; [right | now left].
  apply In_unlink in Hin. destruct Hin as [Hin Hk].
  assert (In l (TTLCache.expire c time)) as Hl.
  { destruct (TTLCache.getlink (TTLCache.expire c time) k);
      [assumption | now apply In_make_room in Hin]. }
  apply In_expire in Hl. tauto.
Qed.

Lemma contains_true c k time :
  TTLCache.contains c k time = true <->
  exists l, TTLCache.getlink c k = Some l /\ time < TTLCache.expires l.
Proof.
  unfold TTLCache.contains. destruct (TTLCache.getlink c k) as [l |].
  - rewrite Z.ltb_lt. split; [eauto |]. intros (l' & E & H). congruence.
  - split; [discriminate |]. intros (l' & E & _). discriminate.
Qed.

Lemma getitem_hit c k time :
  TTLCache.contains c k time = true ->
  exists l, TTLCache.getlink c k = Some l /\ time < TTLCache.expires l /\
            TTLCache.getitem c k time = (Some (TTLCache.value l), TTLCache.unlink c k ++ [l]).
Proof.
  intros H. apply contains_true in H. destruct H as (l & E & Hlt).
  exists l. repeat split; try assumption.
  unfold TTLCache.getitem. rewrite E.
  destruct (Z.ltb_spec time (TTLCache.expires l)); [reflexivity | lia].
Qed.

Lemma getitem_miss c k time :
  TTLCache.contains c k time = false -> fst (TTLCache.getitem c k time) = None.
Proof.
  unfold TTLCache.contains, TTLCache.getitem.
  destruct (TTLCache.getlink c k) as [l |]; [| reflexivity].
  intros ->. reflexivity.
Qed.

(** After [pop] the key stays out of the cache as the timer moves on. *)
Lemma contains_pop c k time time' :
  time <= time' -> TTLCache.contains (TTLCache.pop c k time) k time' = false.
Proof.
  intros Hle. unfold TTLCache.pop.
  destruct (TTLCache.contains c k time) eqn:E.
  - unfold TTLCache.contains. now rewrite getlink_unlink.
  - unfold TTLCache.contains in *.
    destruct (TTLCache.getlink c k) as [l |]; [| reflexivity].
    apply Z.ltb_ge in E. apply Z.ltb_ge. lia.
Qed.

Lemma In_pop c k time l : In l (TTLCache.pop c k time) -> In l c.
Proof.
  unfold TTLCache.pop. destruct (TTLCache.contains c k time); [| tauto].
  intros H. apply In_unlink in H. tauto.
Qed.

Lemma NoDup_keys_unique c l l' :
  NoDup (map TTLCache.key c) -> In l c -> In l' c ->
  TTLCache.key l = TTLCache.key l' -> l = l'.
Proof.
  intros Hnd Hl Hl' E.
  pose proof (find_pk_unique TTLCache.key c l Hnd Hl) as F.
  pose proof (find_pk_unique TTLCache.key c l' Hnd Hl') as F'.
  rewrite E in F. congruence.
Qed.

(** What [pop] leaves under its key is already dead. *)
Lemma pop_leaves_dead c k time l :
  NoDup (map TTLCache.key c) ->
  In l (TTLCache.pop c k time) -> TTLCache.key l = k -> TTLCache.expires l <= time.
Proof.
  intros Hnd. unfold TTLCache.pop.
  destruct (TTLCache.contains c k time) eqn:E; intros Hin Hk.
  - apply In_unlink in Hin. tauto.
  - unfold TTLCache.contains in E.
    destruct (TTLCache.getlink c k) as [l0 |] eqn:G.
    + apply getlink_In in G. destruct G as [Hin0 Hk0].
      assert (l = l0) by (apply (NoDup_keys_unique c); congruence). subst l0.
      now apply Z.ltb_ge in E.
    + apply getlink_None in G. exfalso. apply G. rewrite <- Hk. now apply in_map.
Qed.
End CacheFacts.

Section CacheInvariant.
Context {V : Type}.
Implicit Types (c : TTLCache.t V) (l : TTLCache.link V) (k time : Z).

Lemma cache_wf_empty : cache_wf (@TTLCache.empty V).
Proof. split; [constructor | unfold maxsize; simpl; lia]. Qed.

Lemma unlink_length c k :
  (List.length (TTLCache.unlink c k) <= List.length c)%nat.
Proof. apply filter_length_le. Qed.

Lemma unlink_length_present c k l :
  In l c -> TTLCache.key l = k ->
  (List.length (TTLCache.unlink c k) + 1 <= List.length c)%nat.
Proof.
  induction c as [| x c IH]; simpl; intros Hin Hk; [contradiction |].
  destruct Hin as [-> | Hin].
  - rewrite Hk, Z.eqb_refl. simpl. pose proof (unlink_length c k). lia.
  - specialize (IH Hin Hk). destruct (negb (TTLCache.key x =? k)); simpl; lia.
Qed.

Lemma NoDup_keys_unlink c k :
  NoDup (map TTLCache.key c) -> NoDup (map TTLCache.key (TTLCache.unlink c k)).
Proof. apply NoDup_map_filter. Qed.

Lemma NoDup_keys_snoc c l :
  NoDup (map TTLCache.key c) -> ~ In (TTLCache.key l) (map TTLCache.key c) ->
  NoDup (map TTLCache.key (c ++ [l])).
Proof.
  intros Hnd Hk. rewrite map_app. apply NoDup_app; [assumption | |].
  - simpl. repeat constructor. intros [].
  - intros a Ha [<- | []]. contradiction.
Qed.

Lemma unlink_key_absent c k : ~ In k (map TTLCache.key (TTLCache.unlink c k)).
Proof. apply getlink_None, getlink_unlink. Qed.

Lemma cache_wf_pop c k time : cache_wf c -> cache_wf (TTLCache.pop c k time).
Proof.
  intros [Hnd Hlen]. unfold TTLCache.pop.
  destruct (TTLCache.contains c k time); [| now split].
  split; [now apply NoDup_keys_unlink |].
  pose proof (unlink_length c k). lia.
Qed.

Lemma cache_wf_getitem c k time : cache_wf c -> cache_wf (snd (TTLCache.getitem c k time)).
Proof.
  intros [Hnd Hlen]. unfold TTLCache.getitem.
  destruct (TTLCache.getlink c k) as [l |] eqn:G; [| now split].
  apply getlink_In in G. destruct G as [Hin Hk].
  assert (cache_wf (TTLCache.unlink c k ++ [l])) as H.
  { split.
    - apply NoDup_keys_snoc; [now apply NoDup_keys_unlink |].
      rewrite Hk. apply unlink_key_absent.
    - rewrite length_app. simpl. pose proof (unlink_length_present c k l Hin Hk). lia. }
  now destruct (time <? TTLCache.expires l).
Qed.

Lemma cache_wf_setitem c k (v : V) time c' :
  cache_wf c -> TTLCache.setitem maxsize ttl c k v time = Some c' -> cache_wf c'.
Proof.
  intros [Hnd Hlen]. unfold TTLCache.setitem.
  destruct (maxsize <? 1); [discriminate |].
  intros E. inversion E; subst. clear E.
  assert (NoDup (map TTLCache.key (TTLCache.expire c time))) as Hnd1
    by now apply NoDup_map_filter.
  assert (List.length (TTLCache.expire c time) <= List.length c)%nat as Hlen1
    by apply filter_length_le.
  split.
  - apply NoDup_keys_snoc; [| apply unlink_key_absent].
    apply NoDup_keys_unlink.
    destruct (TTLCache.getlink (TTLCache.expire c time) k); [assumption |].
    destruct (make_room_suffix maxsize (TTLCache.expire c time)) as [ev E].
    rewrite E, map_app in Hnd1. now apply NoDup_app_remove_l in Hnd1.
  - rewrite length_app. simpl.
    destruct (TTLCache.getlink (TTLCache.expire c time) k) as [l |] eqn:G.
    + apply getlink_In in G. destruct G as [Hin Hk].
      pose proof (unlink_length_present _ k l Hin Hk). lia.
    + pose proof (make_room_length maxsize (TTLCache.expire c time)) as Hroom.
      pose proof (unlink_length (TTLCache.make_room maxsize (TTLCache.expire c time)) k).
      unfold maxsize in *. lia.
Qed.


End CacheInvariant.


(** ** The handlers, outcome by outcome *)

Section Handlers.
Variables (w : world) (token : jwt.token) (clk : clock).

Lemma unauthorized_add_post post e :
  verify_token token (utcnow clk) (db w) = Raise e ->
  add_post post token clk w = (Raise e, w).
Proof. intros H. unfold add_post, bind, authenticate. now rewrite H. Qed.

Lemma unauthorized_get_posts e :
  verify_token token (utcnow clk) (db w) = Raise e ->
  get_posts token clk w = (Raise e, w).
Proof. intros H. unfold get_posts, bind, authenticate. now rewrite H. Qed.

Lemma unauthorized_delete_post postID e :
  verify_token token (utcnow clk) (db w) = Raise e ->
  delete_post postID token clk w = (Raise e, w).
Proof. intros H. unfold delete_post, bind, authenticate. now rewrite H. Qed.

Variable user : User.t.
Hypothesis authorized : verify_token token (utcnow clk) (db w) = Return user.

Lemma run_add_post post :
  add_post post token clk w =
    (Return (next_rowid (map Post.id (posts (db w)))),
     {| db := {| users := users (db w);
                 posts := posts (db w) ++
                   [{| Post.id := next_rowid (map Post.id (posts (db w)));
                       Post.text := PostCreate.text post;
                       Post.owner_id := User.id user |}] |};
        post_cache := TTLCache.pop (post_cache w) (User.id user) (monotonic clk) |}).
Proof. unfold add_post, bind, authenticate. now rewrite authorized. Qed.

Lemma run_delete_post_found postID p :
  find (fun p => (Post.id p =? postID) && (Post.owner_id p =? User.id user))
       (posts (db w)) = Some p ->
  delete_post postID token clk w =
    (Return "Post deleted",
     {| db := {| users := users (db w);
                 posts := filter (fun q => negb (Post.id q =? Post.id p)) (posts (db w)) |};
        post_cache := TTLCache.pop (post_cache w) (User.id user) (monotonic clk) |}).
Proof.
  intros F. unfold delete_post, bind, authenticate, query_post.
  now rewrite authorized, F.
Qed.

Lemma run_delete_post_missing postID :
  find (fun p => (Post.id p =? postID) && (Post.owner_id p =? User.id user))
       (posts (db w)) = None ->
  delete_post postID token clk w = (Raise PostNotFound, w).
Proof.
  intros F. unfold delete_post, bind, authenticate, query_post.
  now rewrite authorized, F.
Qed.

Lemma run_get_posts_hit :
  TTLCache.contains (post_cache w) (User.id user) (monotonic clk) = true ->
  exists l,
    TTLCache.getlink (post_cache w) (User.id user) = Some l /\
    monotonic clk < TTLCache.expires l /\
    get_posts token clk w =
      (Return (map to_response (TTLCache.value l)),
       {| db := db w;
          post_cache := TTLCache.unlink (post_cache w) (User.id user) ++ [l] |}).
Proof.
  intros H. destruct (getitem_hit _ _ _ H) as (l & G & Hlt & E).
  exists l. repeat split; try assumption.
  unfold get_posts, bind, authenticate, cache_contains, cache_getitem.
  now rewrite authorized, H, E.
Qed.

Lemma run_get_posts_miss :
  TTLCache.contains (post_cache w) (User.id user) (monotonic clk) = false ->
  exists c',
    TTLCache.setitem maxsize ttl (post_cache w) (User.id user)
                     (posts_of (db w) (User.id user)) (monotonic clk) = Some c' /\
    get_posts token clk w =
      (Return (map to_response (posts_of (db w) (User.id user))),
       {| db := db w; post_cache := c' |}).
Proof.
  intros H.
  destruct (setitem_defined maxsize ttl (post_cache w) (User.id user)
              (posts_of (db w) (User.id user)) (monotonic clk)) as [c' E];
    [unfold maxsize; lia |].
  exists c'. split; [assumption |].
  unfold get_posts, bind, authenticate, cache_contains, query_posts_of, cache_setitem.
  now rewrite authorized, H, E.
Qed.
End Handlers.



Lemma sample_db_wf : db_wf sample_db.
Proof. split; simpl; repeat constructor; simpl; intuition discriminate. Qed.



Lemma users_untouched_add_post w post token clk :
  users (db (snd (add_post post token clk w))) = users (db w).
Proof.
  destruct (verify_token token (utcnow clk) (db w)) as [u | e] eqn:H.
  - now rewrite (run_add_post w token clk u H).
  - now rewrite (unauthorized_add_post w token clk post e H).
Qed.

Lemma users_untouched_delete_post w postID token clk :
  users (db (snd (delete_post postID token clk w))) = users (db w).
Proof.
  destruct (verify_token token (utcnow clk) (db w)) as [u | e] eqn:H.
  - destruct (find (fun p => (Post.id p =? postID) && (Post.owner_id p =? User.id u))
                   (posts (db w))) as [p |] eqn:F.
    + now rewrite (run_delete_post_found w token clk u H postID p F).
    + now rewrite (run_delete_post_missing w token clk u H postID F).
  - now rewrite (unauthorized_delete_post w token clk postID e H).
Qed.

(** C10. A successful add-post appends exactly one post, owned by the
    authenticated user and with a fresh number, and a successful
    delete-post takes out exactly the one post with the given number and
    owner; every other post stays as it was, in place, and neither
    operation, successful or not, changes the users table. *)
Theorem writes_touch_one_row (w : world) (token : jwt.token) (clk : clock) (U : User.t) :
  db_wf (db w) ->
  verify_token token (utcnow clk) (db w) = Return U ->
  (forall post, exists new_post w',
     add_post post token clk w = (Return (Post.id new_post), w') /\
     Post.owner_id new_post = User.id U /\
     Post.text new_post = PostCreate.text post /\
     ~ In (Post.id new_post) (map Post.id (posts (db w))) /\
     posts (db w') = posts (db w) ++ [new_post] /\
     users (db w') = users (db w)) /\
  (forall postID detail w',
     delete_post postID token clk w = (Return detail, w') ->
     exists before p after,
       posts (db w) = before ++ p :: after /\
       posts (db w') = before ++ after /\
       Post.id p = postID /\ Post.owner_id p = User.id U /\
       ~ In p (before ++ after) /\
       users (db w') = users (db w)) /\
  (forall post postID token' clk',
     users (db (snd (add_post post token' clk' w))) = users (db w) /\
     users (db (snd (delete_post postID token' clk' w))) = users (db w)).
Proof.
  intros [Hu Hp] Hauth. split; [| split].
  - intros post. rewrite (run_add_post w token clk U Hauth).
    exists {| Post.id := next_rowid (map Post.id (posts (db w)));
              Post.text := PostCreate.text post;
              Post.owner_id := User.id U |}.
    eexists. split; [reflexivity |]. simpl.
    repeat split. apply next_rowid_fresh.
  - intros postID detail w' Hrun.
    destruct (find (fun p => (Post.id p =? postID) && (Post.owner_id p =? User.id U))
                   (posts (db w))) as [p |] eqn:F.
    + rewrite (run_delete_post_found w token clk U Hauth postID p F) in Hrun.
      inversion Hrun; subst. clear Hrun. simpl.
      apply find_some in F. destruct F as [Hin Hb].
      apply andb_true_iff in Hb. destruct Hb as [Hi Ho]. apply Z.eqb_eq in Hi, Ho.
      destruct (delete_pk_split Post.id _ p Hp Hin) as (l1 & l2 & E1 & E2).
      exists l1, p, l2. repeat split; try assumption.
      rewrite E1 in Hp. rewrite map_app in Hp. simpl in Hp.
      apply NoDup_remove_2 in Hp. intros Hin'. apply Hp.
      rewrite <- map_app. now apply in_map.
    + rewrite (run_delete_post_missing w token clk U Hauth postID F) in Hrun.
      discriminate.
  - intros post postID token' clk'.
    split; [apply users_untouched_add_post | apply users_untouched_delete_post].
Qed.

Lemma writes_touch_one_row_witness :
  db_wf (db sample_world) /\
  verify_token alice_token (utcnow sample_clock) (db sample_world) = Return alice /\
  (forall post, exists new_post w',
     add_post post alice_token sample_clock sample_world = (Return (Post.id new_post), w') /\
     Post.owner_id new_post = User.id alice /\
     Post.text new_post = PostCreate.text post /\
     ~ In (Post.id new_post) (map Post.id (posts (db sample_world))) /\
     posts (db w') = posts (db sample_world) ++ [new_post] /\
     users (db w') = users (db sample_world)) /\
  (forall postID detail w',
     delete_post postID alice_token sample_clock sample_world = (Return detail, w') ->
     exists before p after,
       posts (db sample_world) = before ++ p :: after /\
       posts (db w') = before ++ after /\
       Post.id p = postID /\ Post.owner_id p = User.id alice /\
       ~ In p (before ++ after) /\
       users (db w') = users (db sample_world)) /\
  (forall post postID token' clk',
     users (db (snd (add_post post token' clk' sample_world))) = users (db sample_world) /\
     users (db (snd (delete_post postID token' clk' sample_world))) = users (db sample_world)).
Proof.
  split; [exact sample_db_wf | split; [reflexivity |]].
  apply (writes_touch_one_row sample_world alice_token sample_clock alice).
  - exact sample_db_wf.
  - reflexivity.
Defined.

(** ** Signup *)

Lemma verify_token_users (tok : jwt.token) (now : Z) (d d' : database) :
  users d = users d' -> verify_token tok now d = verify_token tok now d'.
Proof. intros E. unfold verify_token. now rewrite E. Qed.

Lemma run_signup_taken (user : UserCreate.t) (clk : clock) (w : world) :
  (exists u, In u (users (db w)) /\ User.email u = UserCreate.email user) ->
  signup user clk w = (Raise DuplicateEmail, w).
Proof.
  intros (u & Hin & E). unfold signup, bind, query_user_by_email.
  destruct (find _ (users (db w))) as [u' |] eqn:F; [reflexivity |].
  apply (find_none _ _ F) in Hin. simpl in Hin.
  rewrite E, String.eqb_refl in Hin. discriminate.
Qed.

Lemma run_signup_new (user : UserCreate.t) (clk : clock) (w : world) :
  (forall u, In u (users (db w)) -> User.email u <> UserCreate.email user) ->
  signup user clk w =
    (Return (create_token (next_rowid (map User.id (users (db w)))) (utcnow clk)),
     {| db := {| users := users (db w) ++
                   [{| User.id := next_rowid (map User.id (users (db w)));
                       User.email := UserCreate.email user;
                       User.password := UserCreate.password user |}];
                 posts := posts (db w) |};
        post_cache := post_cache w |}).
Proof.
  intros Hnew. unfold signup, bind, query_user_by_email.
  destruct (find _ (users (db w))) as [u' |] eqn:F; [| reflexivity].
  apply find_some in F. destruct F as [Hin E]. apply String.eqb_eq in E.
  now apply Hnew in Hin.
Qed.

(** C4. Signup with an email already in the store fails with
    DuplicateEmail (400) and changes nothing; signup with a new email
    appends one user with that email and password and a fresh id, and
    answers a token whose embedded subject is that id and which, verified
    within its hour, resolves to the new user; a password of fewer than 6
    characters is rejected by input validation before the handler runs,
    while one of 6 or more passes it. *)
Theorem signup_cases (user : UserCreate.t) (clk : clock) (w : world) :
  ((exists u, In u (users (db w)) /\ User.email u = UserCreate.email user) ->
   signup user clk w = (Raise DuplicateEmail, w)) /\
  ((forall u, In u (users (db w)) -> User.email u <> UserCreate.email user) ->
   exists new_user token w',
     signup user clk w = (Return token, w') /\
     users (db w') = users (db w) ++ [new_user] /\
     posts (db w') = posts (db w) /\
     User.email new_user = UserCreate.email user /\
     User.password new_user = UserCreate.password user /\
     ~ In (User.id new_user) (map User.id (users (db w))) /\
     embedded token =
       Some {| jwt.sub := Some (User.id new_user); jwt.exp := Some (utcnow clk + 3600) |} /\
     forall now, now < utcnow clk + 3600 -> verify_token token now (db w') = Return new_user) /\
  (forall EmailStr email password,
     len password < 6 ->
     POST_signup EmailStr email password clk w = (Raise RequestValidationError, w)) /\
  (forall EmailStr email password normalised,
     EmailStr email = Some normalised -> 6 <= len password ->
     POST_signup EmailStr email password clk w =
       signup {| UserCreate.email := normalised; UserCreate.password := password |} clk w).
Proof.
  split; [apply run_signup_taken | split; [| split]].
  - intros Hnew. rewrite (run_signup_new user clk w Hnew).
    exists {| User.id := next_rowid (map User.id (users (db w)));
              User.email := UserCreate.email user;
              User.password := UserCreate.password user |}.
    eexists. eexists. split; [reflexivity |]. simpl.
    repeat split; [apply next_rowid_fresh |].
    intros now Hnow. unfold verify_token, create_token.
    rewrite decode_encode. simpl.
    destruct (Z.leb_spec (utcnow clk + 3600) now); [lia |]. simpl.
    pose proof (find_pk_app_new User.id (users (db w))
                  {| User.id := next_rowid (map User.id (users (db w)));
                     User.email := UserCreate.email user;
                     User.password := UserCreate.password user |}
                  (next_rowid_fresh _)) as F.
    simpl in F. now rewrite F.
  - intros EmailStr email password Hshort.
    unfold POST_signup, validate_UserCreate, constr.
    destruct (EmailStr email); [| reflexivity].
    destruct (Z.leb_spec 6 (len password)); [lia | reflexivity].
  - intros EmailStr email password normalised He Hlong.
    unfold POST_signup, validate_UserCreate, constr. rewrite He.
    destruct (Z.leb_spec 6 (len password)); [reflexivity | lia].
Qed.

(** ** Listing posts *)

(** C5. With a token that resolves to U, get-posts looks in the cache
    first.  On a hit it answers the cached list whatever the posts table
    holds, and leaves the database alone.  On a miss it answers the posts
    of the table whose owner is U, all of them and only them, in table
    order, and stores that list under key U, stamped to expire 300 seconds
    later. *)
Theorem get_posts_cache_first (w : world) (token : jwt.token) (clk : clock) (U : User.t) :
  verify_token token (utcnow clk) (db w) = Return U ->
  (TTLCache.contains (post_cache w) (User.id U) (monotonic clk) = true ->
   exists l,
     TTLCache.getlink (post_cache w) (User.id U) = Some l /\
     monotonic clk < TTLCache.expires l /\
     forall table : list Post.t,
       let w2 := {| db := {| users := users (db w); posts := table |};
                    post_cache := post_cache w |} in
       fst (get_posts token clk w2) = Return (map to_response (TTLCache.value l)) /\
       db (snd (get_posts token clk w2)) = db w2) /\
  (TTLCache.contains (post_cache w) (User.id U) (monotonic clk) = false ->
   exists c',
     get_posts token clk w =
       (Return (map to_response (posts_of (db w) (User.id U))),
        {| db := db w; post_cache := c' |}) /\
     TTLCache.getlink c' (User.id U) =
       Some {| TTLCache.key := User.id U;
               TTLCache.value := posts_of (db w) (User.id U);
               TTLCache.expires := monotonic clk + 300 |} /\
     posts_of (db w) (User.id U) =
       filter (fun p => Post.owner_id p =? User.id U) (posts (db w)) /\
     forall p, In p (posts_of (db w) (User.id U)) <->
               In p (posts (db w)) /\ Post.owner_id p = User.id U).
Proof.
  intros Hauth. split.
  - intros Hhit.
    destruct (getitem_hit _ _ _ Hhit) as (l & G & Hlt & _).
    exists l. repeat split; try assumption;
      set (w2 := {| db := {| users := users (db w); posts := table |};
                    post_cache := post_cache w |}).
    + assert (Hauth2 : verify_token token (utcnow clk) (db w2) = Return U)
        by (rewrite <- Hauth; now apply verify_token_users).
      destruct (run_get_posts_hit w2 token clk U Hauth2 Hhit) as (l' & G' & _ & E).
      simpl in G'. rewrite E. simpl. congruence.
    + assert (Hauth2 : verify_token token (utcnow clk) (db w2) = Return U)
        by (rewrite <- Hauth; now apply verify_token_users).
      destruct (run_get_posts_hit w2 token clk U Hauth2 Hhit) as (l' & _ & _ & E).
      now rewrite E.
  - intros Hmiss.
    destruct (run_get_posts_miss w token clk U Hauth Hmiss) as (c' & Hset & E).
    exists c'. split; [assumption |].
    split; [exact (getlink_setitem _ _ _ _ _ _ _ Hset) |].
    split; [reflexivity |].
    intros p. unfold posts_of. rewrite filter_In, Z.eqb_eq. tauto.
Qed.

(** ** Cache coherence along any sequence of requests *)

Lemma filter_filter_absorb {A : Type} (f g : A -> bool) (xs : list A) :
  (forall x, In x xs -> f x = true -> g x = true) ->
  filter f (filter g xs) = filter f xs.
Proof.
  induction xs as [| x xs IH]; simpl; intros H; [reflexivity |].
  assert (IH' : filter f (filter g xs) = filter f xs)
    by (apply IH; intros y Hy; apply H; now right).
  destruct (g x) eqn:G; simpl.
  - now rewrite IH'.
  - destruct (f x) eqn:F; [| exact IH'].
    rewrite (H x (or_introl eq_refl) F) in G. discriminate.
Qed.

Lemma posts_of_append (d : database) (p : Post.t) (owner : Z) :
  posts_of {| users := users d; posts := posts d ++ [p] |} owner =
    if Post.owner_id p =? owner then posts_of d owner ++ [p] else posts_of d owner.
Proof.
  unfold posts_of. simpl. rewrite filter_app. simpl.
  destruct (Post.owner_id p =? owner); [reflexivity | apply app_nil_r].
Qed.

Lemma posts_of_delete_other (d : database) (p : Post.t) (owner : Z) :
  NoDup (map Post.id (posts d)) -> In p (posts d) -> Post.owner_id p <> owner ->
  posts_of {| users := users d;
              posts := filter (fun q => negb (Post.id q =? Post.id p)) (posts d) |} owner
    = posts_of d owner.
Proof.
  intros Hnd Hin Hother. unfold posts_of. simpl.
  apply filter_filter_absorb. intros q Hq Ho.
  apply Z.eqb_eq in Ho. apply negb_true_iff, Z.eqb_neq. intros E.
  assert (q = p).
  { pose proof (find_pk_unique Post.id _ q Hnd Hq) as Fq.
    pose proof (find_pk_unique Post.id _ p Hnd Hin) as Fp.
    rewrite E in Fq. congruence. }
  subst q. contradiction.
Qed.

Lemma coherent_later (w : world) (t t' : Z) : t <= t' -> coherent w t -> coherent w t'.
Proof. intros Hle H l Hin Hlive. apply H; [assumption | lia]. Qed.

Lemma consistent_later (w : world) (t t' : Z) :
  t <= t' -> consistent w t -> consistent w t'.
Proof.
  intros Hle (Hdb & Hc & Hcoh).
  split; [assumption | split; [assumption | now apply (coherent_later w t)]].
Qed.

Lemma initial_world_consistent (t : Z) : consistent initial_world t.
Proof.
  split; [apply empty_database_wf | split; [apply cache_wf_empty |]].
  intros l [].
Qed.

Section Preservation.
Variables (w : world) (clk : clock) (t : Z).
Hypothesis inv : consistent w t.
Hypothesis later : t <= monotonic clk.

Lemma consistent_signup user : consistent (snd (signup user clk w)) (monotonic clk).
Proof.
  pose proof (consistent_later w t (monotonic clk) later inv) as Hsame.
  destruct inv as ((Hu & Hp) & Hc & Hcoh).
  unfold signup, bind, query_user_by_email.
  destruct (find _ (users (db w))) as [u |]; simpl; [assumption |].
  split; [split; simpl; [| assumption] | split; [assumption |]].
  - rewrite map_app. simpl. now apply NoDup_snoc_fresh.
  - intros l Hin Hlive. simpl in *. apply (Hcoh l Hin). lia.
Qed.

Lemma consistent_login user : consistent (snd (login user clk w)) (monotonic clk).
Proof.
  assert (snd (login user clk w) = w) as ->.
  { unfold login, bind, query_user_by_credentials.
    now destruct (find _ (users (db w))). }
  now apply (consistent_later w t).
Qed.

Lemma consistent_add_post post token :
  consistent (snd (add_post post token clk w)) (monotonic clk).
Proof.
  destruct inv as ((Hu & Hp) & Hc & Hcoh).
  destruct (verify_token token (utcnow clk) (db w)) as [u | e] eqn:H.
  - rewrite (run_add_post w token clk u H). simpl.
    split; [split; simpl; [assumption |] | split; [now apply cache_wf_pop |]].
    + rewrite map_app. simpl. now apply NoDup_snoc_fresh.
    + intros l Hin Hlive. simpl in *.
      assert (TTLCache.key l <> User.id u) as Hk.
      { intros E. pose proof (pop_leaves_dead _ _ _ _ (proj1 Hc) Hin E). lia. }
      rewrite (posts_of_append (db w)). simpl.
      destruct (Z.eqb_spec (User.id u) (TTLCache.key l)) as [E | _]; [congruence |].
      apply Hcoh; [now apply In_pop in Hin | lia].
  - rewrite (unauthorized_add_post w token clk post e H). simpl.
    apply (consistent_later w t); [assumption |].
    split; [split |]; tauto.
Qed.

Lemma consistent_delete_post postID token :
  consistent (snd (delete_post postID token clk w)) (monotonic clk).
Proof.
  pose proof (consistent_later w t (monotonic clk) later inv) as Hsame.
  destruct inv as ((Hu & Hp) & Hc & Hcoh).
  destruct (verify_token token (utcnow clk) (db w)) as [u | e] eqn:H.
  - destruct (find (fun p => (Post.id p =? postID) && (Post.owner_id p =? User.id u))
                   (posts (db w))) as [p |] eqn:F.
    + rewrite (run_delete_post_found w token clk u H postID p F). simpl.
      apply find_some in F. destruct F as [Hin Hb].
      apply andb_true_iff in Hb. destruct Hb as [_ Ho]. apply Z.eqb_eq in Ho.
      split; [split; simpl; [assumption | now apply NoDup_map_filter] |].
      split; [now apply cache_wf_pop |].
      intros l Hl Hlive. simpl in *.
      assert (TTLCache.key l <> User.id u) as Hk.
      { intros E. pose proof (pop_leaves_dead _ _ _ _ (proj1 Hc) Hl E). lia. }
      rewrite (posts_of_delete_other (db w) p (TTLCache.key l) Hp Hin);
        [| congruence].
      apply Hcoh; [now apply In_pop in Hl | lia].
    + now rewrite (run_delete_post_missing w token clk u H postID F).
  - now rewrite (unauthorized_delete_post w token clk postID e H).
Qed.

Lemma consistent_get_posts token :
  consistent (snd (get_posts token clk w)) (monotonic clk).
Proof.
  pose proof (consistent_later w t (monotonic clk) later inv) as Hsame.
  destruct inv as (Hdb & Hc & Hcoh).
  destruct (verify_token token (utcnow clk) (db w)) as [u | e] eqn:H.
  - destruct (TTLCache.contains (post_cache w) (User.id u) (monotonic clk)) eqn:Hit.
    + destruct (run_get_posts_hit w token clk u H Hit) as (l & G & Hlt & E).
      rewrite E. simpl.
      pose proof (cache_wf_getitem (post_cache w) (User.id u) (monotonic clk) Hc) as Hc'.
      destruct (getitem_hit _ _ _ Hit) as (l' & G' & _ & E').
      rewrite E' in Hc'. simpl in Hc'.
      assert (l' = l) by congruence. subst l'.
      split; [assumption | split; [assumption |]].
      intros x Hx Hlive. simpl in *.
      apply in_app_or in Hx. apply getlink_In in G.
      destruct Hx as [Hx | [<- | []]].
      * apply In_unlink in Hx. apply Hcoh; [tauto | lia].
      * apply Hcoh; [tauto | lia].
    + destruct (run_get_posts_miss w token clk u H Hit) as (c' & Hset & E).
      rewrite E. simpl.
      split; [assumption | split; [now apply (cache_wf_setitem _ _ _ _ _ Hc Hset) |]].
      intros x Hx Hlive. simpl in *.
      destruct (In_setitem _ _ _ _ _ _ _ _ Hset Hx) as [-> | (Hin & _ & _)];
        [reflexivity |].
      apply Hcoh; [assumption | lia].
  - now rewrite (unauthorized_get_posts w token clk e H).
Qed.

Lemma consistent_serve r : consistent (serve r clk w) (monotonic clk).
Proof.
  destruct r; simpl.
  - apply consistent_signup.
  - apply consistent_login.
  - apply consistent_add_post.
  - apply consistent_get_posts.
  - apply consistent_delete_post.
Qed.

(** In a consistent world the answer of get-posts is the table's. *)
Lemma get_posts_current token U :
  verify_token token (utcnow clk) (db w) = Return U ->
  fst (get_posts token clk w) = Return (map to_response (posts_of (db w) (User.id U))).
Proof.
  intros H. destruct inv as (_ & _ & Hcoh).
  destruct (TTLCache.contains (post_cache w) (User.id U) (monotonic clk)) eqn:Hit.
  - destruct (run_get_posts_hit w token clk U H Hit) as (l & G & Hlt & E).
    rewrite E. simpl. apply getlink_In in G. destruct G as [Hin Hk].
    rewrite (Hcoh l Hin); [now rewrite Hk | lia].
  - destruct (run_get_posts_miss w token clk U H Hit) as (c' & _ & E).
    now rewrite E.
Qed.
End Preservation.

Lemma consistent_serve_all (rs : list (request * clock)) (w : world) (t : Z) :
  consistent w t -> timer_monotone t rs ->
  consistent (serve_all rs w) (last_time t rs).
Proof.
  revert w t. induction rs as [| [r clk] rs IH]; simpl; intros w t Hinv Hmono;
    [assumption |].
  destruct Hmono as [Hle Hrest].
  apply IH; [| assumption]. now apply (consistent_serve w clk t).
Qed.

(** ** Writes and the cache *)

Lemma get_posts_on_miss (w : world) (token : jwt.token) (clk : clock) (U : User.t) :
  verify_token token (utcnow clk) (db w) = Return U ->
  TTLCache.contains (post_cache w) (User.id U) (monotonic clk) = false ->
  fst (get_posts token clk w) = Return (map to_response (posts_of (db w) (User.id U))).
Proof.
  intros H Hmiss.
  destruct (run_get_posts_miss w token clk U H Hmiss) as (c' & _ & E). now rewrite E.
Qed.

Lemma add_post_then_get_posts (w : world) (token : jwt.token) (clk : clock) (U : User.t) :
  verify_token token (utcnow clk) (db w) = Return U ->
  forall post postID w',
    add_post post token clk w = (Return postID, w') ->
    (forall time, monotonic clk <= time ->
       TTLCache.contains (post_cache w') (User.id U) time = false) /\
    posts_of (db w') (User.id U) =
      posts_of (db w) (User.id U) ++
      [{| Post.id := postID; Post.text := PostCreate.text post;
          Post.owner_id := User.id U |}] /\
    (forall token' clk' U',
       monotonic clk <= monotonic clk' ->
       verify_token token' (utcnow clk') (db w') = Return U' ->
       User.id U' = User.id U ->
       fst (get_posts token' clk' w') =
         Return (map to_response (posts_of (db w') (User.id U)))).
Proof.
  intros Hauth post postID w' Hrun.
  rewrite (run_add_post w token clk U Hauth) in Hrun.
  inversion Hrun; subst. clear Hrun. simpl.
  split; [intros time Hle; now apply contains_pop |].
  split.
  - rewrite (posts_of_append (db w)). simpl. now rewrite Z.eqb_refl.
  - intros token' clk' U' Hle H' Eid. rewrite <- Eid.
    apply get_posts_on_miss; [assumption |]. simpl. rewrite Eid.
    now apply contains_pop.
Qed.

Lemma delete_post_then_get_posts (w : world) (token : jwt.token) (clk : clock) (U : User.t) :
  verify_token token (utcnow clk) (db w) = Return U ->
  forall postID detail w',
    delete_post postID token clk w = (Return detail, w') ->
    (forall time, monotonic clk <= time ->
       TTLCache.contains (post_cache w') (User.id U) time = false) /\
    (forall p, In p (posts_of (db w') (User.id U)) <->
               In p (posts_of (db w) (User.id U)) /\ Post.id p <> postID) /\
    (forall token' clk' U',
       monotonic clk <= monotonic clk' ->
       verify_token token' (utcnow clk') (db w') = Return U' ->
       User.id U' = User.id U ->
       fst (get_posts token' clk' w') =
         Return (map to_response (posts_of (db w') (User.id U)))).
Proof.
  intros Hauth postID detail w' Hrun.
  destruct (find (fun p => (Post.id p =? postID) && (Post.owner_id p =? User.id U))
                 (posts (db w))) as [p |] eqn:F.
  - rewrite (run_delete_post_found w token clk U Hauth postID p F) in Hrun.
    inversion Hrun; subst. clear Hrun. simpl.
    apply find_some in F. destruct F as [Hin Hb].
    apply andb_true_iff in Hb. destruct Hb as [Hi _]. apply Z.eqb_eq in Hi.
    split; [intros time Hle; now apply contains_pop |].
    split.
    + intros q. unfold posts_of. simpl.
      rewrite !filter_In, negb_true_iff, Z.eqb_neq, Hi. tauto.
    + intros token' clk' U' Hle H' Eid. rewrite <- Eid.
      apply get_posts_on_miss; [assumption |]. simpl. rewrite Eid.
      now apply contains_pop.
  - rewrite (run_delete_post_missing w token clk U Hauth postID F) in Hrun.
    discriminate.
Qed.

(** C1. When add-post or delete-post succeeds for user U, the world it
    returns has no cache entry for U that any later lookup would serve, so
    the next get-posts for U reads the table: after an add its answer ends
    with the new post, after a delete it has no post with the deleted
    number.  More generally, from a consistent world (the initial one is)
    and along any sequence of requests with a monotonic timer, every
    get-posts answers the posts the table holds at that moment. *)
Theorem write_invalidates_cache (w : world) (token : jwt.token) (clk : clock) (U : User.t) :
  verify_token token (utcnow clk) (db w) = Return U ->
  (forall post postID w',
     add_post post token clk w = (Return postID, w') ->
     (forall time, monotonic clk <= time ->
        TTLCache.contains (post_cache w') (User.id U) time = false) /\
     posts_of (db w') (User.id U) =
       posts_of (db w) (User.id U) ++
       [{| Post.id := postID; Post.text := PostCreate.text post;
           Post.owner_id := User.id U |}] /\
     (forall token' clk' U',
        monotonic clk <= monotonic clk' ->
        verify_token token' (utcnow clk') (db w') = Return U' ->
        User.id U' = User.id U ->
        fst (get_posts token' clk' w') =
          Return (map to_response (posts_of (db w') (User.id U))))) /\
  (forall postID detail w',
     delete_post postID token clk w = (Return detail, w') ->
     (forall time, monotonic clk <= time ->
        TTLCache.contains (post_cache w') (User.id U) time = false) /\
     (forall p, In p (posts_of (db w') (User.id U)) <->
                In p (posts_of (db w) (User.id U)) /\ Post.id p <> postID) /\
     (forall token' clk' U',
        monotonic clk <= monotonic clk' ->
        verify_token token' (utcnow clk') (db w') = Return U' ->
        User.id U' = User.id U ->
        fst (get_posts token' clk' w') =
          Return (map to_response (posts_of (db w') (User.id U))))) /\
  (forall t rs token' clk' U',
     consistent w t -> timer_monotone t rs -> last_time t rs <= monotonic clk' ->
     verify_token token' (utcnow clk') (db (serve_all rs w)) = Return U' ->
     fst (get_posts token' clk' (serve_all rs w)) =
       Return (map to_response (posts_of (db (serve_all rs w)) (User.id U')))).
Proof.
  intros Hauth. split; [| split].
  - now apply add_post_then_get_posts.
  - now apply delete_post_then_get_posts.
  - intros t rs token' clk' U' Hinv Hmono Hle H'.
    apply (get_posts_current (serve_all rs w) clk' (last_time t rs));
      [now apply consistent_serve_all | assumption | assumption].
Qed.

(** ** Texts *)

Lemma len_str_mul (c : ascii) (z : Z) : 0 <= z -> len (str_mul c (Z.to_nat z)) = z.
Proof.
  intros Hz. unfold len.
  assert (forall n, String.length (str_mul c n) = n) as H
    by (induction n as [| n IH]; simpl; [reflexivity | now rewrite IH]).
  rewrite H. now apply Z2Nat.id.
Qed.

Lemma validate_PostCreate_accepts (T : string) :
  len T <= 1000000 -> validate_PostCreate T = Return {| PostCreate.text := T |}.
Proof.
  intros H. unfold validate_PostCreate, constr.
  destruct (Z.leb_spec (len T) 1000000); [reflexivity | lia].
Qed.

Lemma validate_PostCreate_rejects (T : string) :
  1000000 < len T -> validate_PostCreate T = Raise RequestValidationError.
Proof.
  intros H. unfold validate_PostCreate, constr.
  destruct (Z.leb_spec (len T) 1000000); [lia | reflexivity].
Qed.

(** C7. A text of at most 1,000,000 characters passes the validation of
    add-post, and posting it with a valid token and then fetching the
    user's posts answers a list whose last post has the number add-post
    returned and exactly that text; a longer text is rejected by the
    validation and the handler never runs.  Texts of exactly 1,000,000 and
    of 1,000,001 characters exist and fall on the two sides. *)
Theorem post_text_round_trip :
  (forall T, len T <= 1000000 ->
     validate_PostCreate T = Return {| PostCreate.text := T |} /\
     forall w token clk U,
       verify_token token (utcnow clk) (db w) = Return U ->
       exists postID w1,
         POST_addpost T token clk w = (Return postID, w1) /\
         forall token' clk' U',
           monotonic clk <= monotonic clk' ->
           verify_token token' (utcnow clk') (db w1) = Return U' ->
           User.id U' = User.id U ->
           fst (get_posts token' clk' w1) =
             Return (map to_response (posts_of (db w) (User.id U)) ++
                     [{| PostResponse.id := postID; PostResponse.text := T |}])) /\
  (forall T, 1000000 < len T ->
     validate_PostCreate T = Raise RequestValidationError /\
     forall token clk w, POST_addpost T token clk w = (Raise RequestValidationError, w)) /\
  (exists T, len T = 1000000 /\
             validate_PostCreate T = Return {| PostCreate.text := T |}) /\
  (exists T, len T = 1000001 /\
             validate_PostCreate T = Raise RequestValidationError).
Proof.
  split; [| split; [| split]].
  - intros T Hlen. split; [now apply validate_PostCreate_accepts |].
    intros w token clk U Hauth.
    unfold POST_addpost. rewrite (validate_PostCreate_accepts T Hlen).
    pose proof (run_add_post w token clk U Hauth {| PostCreate.text := T |}) as Hrun.
    eexists. eexists. split; [exact Hrun |].
    intros token' clk' U' Hle H' Eid.
    destruct (add_post_then_get_posts w token clk U Hauth _ _ _ Hrun)
      as (_ & Hposts & Hget).
    rewrite (Hget token' clk' U' Hle H' Eid), Hposts, map_app. reflexivity.
  - intros T Hlen. split; [now apply validate_PostCreate_rejects |].
    intros token clk w. unfold POST_addpost.
    now rewrite (validate_PostCreate_rejects T Hlen).
  - exists (str_mul "a" (Z.to_nat 1000000)).
    assert (len (str_mul "a" (Z.to_nat 1000000)) = 1000000) as E
      by (apply len_str_mul; lia).
    split; [exact E |]. apply validate_PostCreate_accepts. rewrite E. lia.
  - exists (str_mul "a" (Z.to_nat 1000001)).
    assert (len (str_mul "a" (Z.to_nat 1000001)) = 1000001) as E
      by (apply len_str_mul; lia).
    split; [exact E |]. apply validate_PostCreate_rejects. rewrite E. lia.
Qed.

(** ** The scenario of the specification *)

(** C9. From the empty store: signup("a@x.com", "secret1") answers a token
    A; addpost with A and "hello" answers postID 1; getposts with A answers
    exactly [{id: 1, text: "hello"}]; deletepost(1, A) answers its
    confirmation; a last getposts with A answers the empty list.  The five
    requests fall within the hour of the token, and the cache's timer does
    not run backwards between the delete and the last read. *)
Theorem concrete_scenario (EmailStr : string -> option string)
    (clk1 clk2 clk3 clk4 clk5 : clock) :
  EmailStr "a@x.com" = Some "a@x.com" ->
  utcnow clk2 < utcnow clk1 + 3600 ->
  utcnow clk3 < utcnow clk1 + 3600 ->
  utcnow clk4 < utcnow clk1 + 3600 ->
  utcnow clk5 < utcnow clk1 + 3600 ->
  monotonic clk4 <= monotonic clk5 ->
  exists A w1 w2 w3 w4 w5,
    POST_signup EmailStr "a@x.com" "secret1" clk1 initial_world = (Return A, w1) /\
    POST_addpost "hello" A clk2 w1 = (Return 1, w2) /\
    get_posts A clk3 w2 =
      (Return [{| PostResponse.id := 1; PostResponse.text := "hello" |}], w3) /\
    delete_post 1 A clk4 w3 = (Return "Post deleted", w4) /\
    get_posts A clk5 w4 = (Return [], w5).
Proof.
  intros Hemail H2 H3 H4 H5 Hmono.
  set (A := create_token 1 (utcnow clk1)).
  set (d1 := {| users := [alice]; posts := [] |}).
  set (hello := {| Post.id := 1; Post.text := "hello"; Post.owner_id := 1 |}).
  set (d2 := {| users := [alice]; posts := [hello] |}).
  assert (Hnd : NoDup (map User.id [alice])) by (repeat constructor; intros []).
  assert (Hauth : forall now posts,
             now < utcnow clk1 + 3600 ->
             verify_token A now {| users := [alice]; posts := posts |} = Return alice).
  { intros now ps Hnow.
    apply (verify_token_issued {| users := [alice]; posts := ps |} alice);
      [exact Hnd | now left | assumption]. }
  set (w1 := {| db := d1; post_cache := TTLCache.empty |}).
  set (w2 := {| db := d2; post_cache := TTLCache.pop TTLCache.empty 1 (monotonic clk2) |}).
  assert (Hmiss3 : TTLCache.contains (post_cache w2) (User.id alice) (monotonic clk3) = false)
    by reflexivity.
  destruct (run_get_posts_miss w2 A clk3 alice (Hauth _ _ H3) Hmiss3) as (c3 & _ & E3).
  set (w3 := {| db := d2; post_cache := c3 |}).
  set (w4 := {| db := d1; post_cache := TTLCache.pop c3 1 (monotonic clk4) |}).
  assert (Hmiss5 : TTLCache.contains (post_cache w4) (User.id alice) (monotonic clk5) = false)
    by (now apply contains_pop).
  destruct (run_get_posts_miss w4 A clk5 alice (Hauth _ _ H5) Hmiss5) as (c5 & _ & E5).
  exists A, w1, w2, w3, w4, {| db := d1; post_cache := c5 |}.
  split; [| split; [| split; [| split]]].
  - unfold POST_signup, validate_UserCreate. rewrite Hemail. reflexivity.
  - unfold POST_addpost. simpl.
    exact (run_add_post w1 A clk2 alice (Hauth _ _ H2) {| PostCreate.text := "hello" |}).
  - exact E3.
  - exact (run_delete_post_found w3 A clk4 alice (Hauth _ _ H4) 1 hello eq_refl).
  - exact E5.
Qed.

Lemma concrete_scenario_witness :
  exists A w1 w2 w3 w4 w5,
    POST_signup (fun s => Some s) "a@x.com" "secret1"
                {| utcnow := 1000; monotonic := 10 |} initial_world = (Return A, w1) /\
    POST_addpost "hello" A {| utcnow := 1060; monotonic := 70 |} w1 = (Return 1, w2) /\
    get_posts A {| utcnow := 1120; monotonic := 130 |} w2 =
      (Return [{| PostResponse.id := 1; PostResponse.text := "hello" |}], w3) /\
    delete_post 1 A {| utcnow := 1180; monotonic := 190 |} w3 = (Return "Post deleted", w4) /\
    get_posts A {| utcnow := 1240; monotonic := 250 |} w4 = (Return [], w5).
Proof.
  apply (concrete_scenario (fun s => Some s)
           {| utcnow := 1000; monotonic := 10 |}
           {| utcnow := 1060; monotonic := 70 |}
           {| utcnow := 1120; monotonic := 130 |}
           {| utcnow := 1180; monotonic := 190 |}
           {| utcnow := 1240; monotonic := 250 |});
    simpl; solve [reflexivity | lia].
Defined.

(** ** The properties at the sample data *)

Lemma sample_world_consistent : consistent sample_world 50.
Proof.
  split; [exact sample_db_wf | split].
  - split; simpl; [repeat constructor; simpl; intuition discriminate | unfold maxsize; lia].
  - intros l [<- | [<- | []]] _; reflexivity.
Qed.

Lemma full_cache_wf : cache_wf full_cache /\ Z.of_nat (List.length full_cache) = 100.
Proof.
  split; [split |].
  - unfold full_cache. rewrite map_map. simpl TTLCache.key.
    apply Injective_map_NoDup; [exact Nat2Z.inj | apply seq_NoDup].
  - unfold full_cache. rewrite length_map, length_seq. unfold maxsize. lia.
  - unfold full_cache. rewrite length_map, length_seq. reflexivity.
Qed.


Lemma write_invalidates_cache_witness :
  verify_token alice_token (utcnow sample_clock) (db sample_world) = Return alice /\
  (forall post postID w',
     add_post post alice_token sample_clock sample_world = (Return postID, w') ->
     (forall time, monotonic sample_clock <= time ->
        TTLCache.contains (post_cache w') (User.id alice) time = false) /\
     posts_of (db w') (User.id alice) =
       posts_of (db sample_world) (User.id alice) ++
       [{| Post.id := postID; Post.text := PostCreate.text post;
           Post.owner_id := User.id alice |}] /\
     (forall token' clk' U',
        monotonic sample_clock <= monotonic clk' ->
        verify_token token' (utcnow clk') (db w') = Return U' ->
        User.id U' = User.id alice ->
        fst (get_posts token' clk' w') =
          Return (map to_response (posts_of (db w') (User.id alice))))) /\
  (forall postID detail w',
     delete_post postID alice_token sample_clock sample_world = (Return detail, w') ->
     (forall time, monotonic sample_clock <= time ->
        TTLCache.contains (post_cache w') (User.id alice) time = false) /\
     (forall p, In p (posts_of (db w') (User.id alice)) <->
                In p (posts_of (db sample_world) (User.id alice)) /\ Post.id p <> postID) /\
     (forall token' clk' U',
        monotonic sample_clock <= monotonic clk' ->
        verify_token token' (utcnow clk') (db w') = Return U' ->
        User.id U' = User.id alice ->
        fst (get_posts token' clk' w') =
          Return (map to_response (posts_of (db w') (User.id alice))))) /\
  (forall t rs token' clk' U',
     consistent sample_world t -> timer_monotone t rs -> last_time t rs <= monotonic clk' ->
     verify_token token' (utcnow clk') (db (serve_all rs sample_world)) = Return U' ->
     fst (get_posts token' clk' (serve_all rs sample_world)) =
       Return (map to_response (posts_of (db (serve_all rs sample_world)) (User.id U')))).
Proof.
  split; [reflexivity |].
  apply (write_invalidates_cache sample_world alice_token sample_clock alice).
  reflexivity.
Defined.

Lemma get_posts_cache_first_witness :
  verify_token alice_token (utcnow sample_clock) (db sample_world) = Return alice /\
  (TTLCache.contains (post_cache sample_world) (User.id alice) (monotonic sample_clock) = true ->
   exists l,
     TTLCache.getlink (post_cache sample_world) (User.id alice) = Some l /\
     monotonic sample_clock < TTLCache.expires l /\
     forall table : list Post.t,
       fst (get_posts alice_token sample_clock
              {| db := {| users := users (db sample_world); posts := table |};
                 post_cache := post_cache sample_world |})
         = Return (map to_response (TTLCache.value l)) /\
       db (snd (get_posts alice_token sample_clock
                  {| db := {| users := users (db sample_world); posts := table |};
                     post_cache := post_cache sample_world |}))
         = {| users := users (db sample_world); posts := table |}) /\
  (TTLCache.contains (post_cache sample_world) (User.id alice) (monotonic sample_clock) = false ->
   exists c',
     get_posts alice_token sample_clock sample_world =
       (Return (map to_response (posts_of (db sample_world) (User.id alice))),
        {| db := db sample_world; post_cache := c' |}) /\
     TTLCache.getlink c' (User.id alice) =
       Some {| TTLCache.key := User.id alice;
               TTLCache.value := posts_of (db sample_world) (User.id alice);
               TTLCache.expires := monotonic sample_clock + 300 |} /\
     posts_of (db sample_world) (User.id alice) =
       filter (fun p => Post.owner_id p =? User.id alice) (posts (db sample_world)) /\
     forall p, In p (posts_of (db sample_world) (User.id alice)) <->
               In p (posts (db sample_world)) /\ Post.owner_id p = User.id alice).
Proof.
  split; [reflexivity |].
  apply (get_posts_cache_first sample_world alice_token sample_clock alice).
  reflexivity.
Defined.

(** * Further properties of the code *)

(** ** Login *)

Lemma NoDup_map_injective {A B : Type} (f : A -> B) (xs : list A) (a b : A) :
  NoDup (map f xs) -> In a xs -> In b xs -> f a = f b -> a = b.
Proof.
  induction xs as [| x xs IH]; simpl; intros Hnd Ha Hb E; [contradiction |].
  inversion Hnd as [| ? ? Hx Hxs]; subst.
  destruct Ha as [-> | Ha], Hb as [-> | Hb].
  - reflexivity.
  - exfalso. apply Hx. rewrite E. now apply in_map.
  - exfalso. apply Hx. rewrite <- E. now apply in_map.
  - now apply IH.
Qed.

Lemma find_snoc_first {A : Type} (p : A -> bool) (xs : list A) (a : A) :
  (forall x, In x xs -> p x = false) -> p a = true -> find p (xs ++ [a]) = Some a.
Proof.
  induction xs as [| x xs IH]; simpl; intros Hxs Ha.
  - now rewrite Ha.
  - rewrite (Hxs x (or_introl eq_refl)). apply IH; [| assumption].
    intros y Hy. apply Hxs. now right.
Qed.

Lemma run_login_found (user : UserLogin.t) (clk : clock) (w : world) (u : User.t) :
  find (fun u => String.eqb (User.email u) (UserLogin.email user)
                 && String.eqb (User.password u) (UserLogin.password user))
       (users (db w)) = Some u ->
  login user clk w = (Return (create_token (User.id u) (utcnow clk)), w).
Proof. intros F. unfold login, bind, query_user_by_credentials. now rewrite F. Qed.

Lemma run_login_missing (user : UserLogin.t) (clk : clock) (w : world) :
  find (fun u => String.eqb (User.email u) (UserLogin.email user)
                 && String.eqb (User.password u) (UserLogin.password user))
       (users (db w)) = None ->
  login user clk w = (Raise InvalidCredentials, w).
Proof. intros F. unfold login, bind, query_user_by_credentials. now rewrite F. Qed.

Lemma credentials_find (d : database) (email password : string) :
  registered d email password <->
  exists u, find (fun u => String.eqb (User.email u) email
                           && String.eqb (User.password u) password)
                 (users d) = Some u.
Proof.
  split.
  - intros (u & Hin & He & Hp).
    destruct (find _ (users d)) as [u' |] eqn:F; [now exists u' |].
    apply (find_none _ _ F) in Hin. simpl in Hin.
    rewrite He, Hp, !String.eqb_refl in Hin. discriminate.
  - intros (u & F). apply find_some in F. destruct F as [Hin Hb].
    apply andb_true_iff in Hb. destruct Hb as [He Hp].
    apply String.eqb_eq in He, Hp. now exists u.
Qed.

Lemma login_leaves_world (user : UserLogin.t) (clk : clock) (w : world) :
  snd (login user clk w) = w.
Proof.
  unfold login, bind, query_user_by_credentials.
  now destruct (find _ (users (db w))).
Qed.

(** X1. Login answers a token exactly when some stored user has the given
    email and password; the token is issued for such a user, and with
    unique ids it resolves to that user for the next hour.  Without such a
    user login fails with 400 "Invalid credentials".  Whatever it answers,
    login changes nothing. *)
Theorem login_cases (user : UserLogin.t) (clk : clock) (w : world) :
  (registered (db w) (UserLogin.email user) (UserLogin.password user) ->
   exists u,
     In u (users (db w)) /\
     User.email u = UserLogin.email user /\
     User.password u = UserLogin.password user /\
     login user clk w = (Return (create_token (User.id u) (utcnow clk)), w) /\
     (NoDup (map User.id (users (db w))) ->
      forall now, now < utcnow clk + 3600 ->
        verify_token (create_token (User.id u) (utcnow clk)) now (db w) = Return u)) /\
  (~ registered (db w) (UserLogin.email user) (UserLogin.password user) ->
   login user clk w = (Raise InvalidCredentials, w)) /\
  snd (login user clk w) = w.
Proof.
  destruct (find (fun u => String.eqb (User.email u) (UserLogin.email user)
                           && String.eqb (User.password u) (UserLogin.password user))
                 (users (db w))) as [u |] eqn:F.
  - rewrite (run_login_found user clk w u F).
    split; [| split; [| reflexivity]].
    + intros _. pose proof F as F'. apply find_some in F'. destruct F' as [Hin Hb].
      apply andb_true_iff in Hb. destruct Hb as [He Hp].
      apply String.eqb_eq in He, Hp.
      exists u. repeat split; try assumption.
      intros Hnd now Hnow. now apply verify_token_issued.
    + intros Hno. exfalso. apply Hno. apply credentials_find. eauto.
  - rewrite (run_login_missing user clk w F).
    split; [| split; [reflexivity | reflexivity]].
    intros H. apply credentials_find in H. destruct H as [u H]. congruence.
Qed.

(** X2. After a signup with a new email, a login with the same email and
    password succeeds, changes nothing, and answers a token that resolves
    to the user the signup created. *)
Theorem signup_then_login (user : UserCreate.t) (clk clk' : clock) (w : world) :
  (forall u, In u (users (db w)) -> User.email u <> UserCreate.email user) ->
  exists new_user token w1,
    signup user clk w = (Return token, w1) /\
    In new_user (users (db w1)) /\
    User.email new_user = UserCreate.email user /\
    login {| UserLogin.email := UserCreate.email user;
             UserLogin.password := UserCreate.password user |} clk' w1 =
      (Return (create_token (User.id new_user) (utcnow clk')), w1) /\
    forall now, now < utcnow clk' + 3600 ->
      verify_token (create_token (User.id new_user) (utcnow clk')) now (db w1)
        = Return new_user.
Proof.
  intros Hnew. rewrite (run_signup_new user clk w Hnew).
  set (new_user := {| User.id := next_rowid (map User.id (users (db w)));
                      User.email := UserCreate.email user;
                      User.password := UserCreate.password user |}).
  exists new_user. eexists. eexists. split; [reflexivity |].
  split; [simpl; apply in_or_app; right; now left |].
  split; [reflexivity |].
  split.
  - apply run_login_found. simpl. apply find_snoc_first.
    + intros x Hx.
      destruct (String.eqb_spec (User.email x) (UserCreate.email user)) as [E | _];
        [| reflexivity].
      exfalso. now apply (Hnew x).
    + simpl. now rewrite !String.eqb_refl.
  - intros now Hnow. unfold verify_token, create_token.
    rewrite decode_encode. simpl.
    destruct (Z.leb_spec (utcnow clk' + 3600) now); [lia |]. simpl.
    pose proof (find_pk_app_new User.id (users (db w)) new_user
                  (next_rowid_fresh _)) as F.
    simpl in F. now rewrite F.
Qed.

Lemma signup_then_login_witness :
  (forall u, In u (users (db sample_world)) -> User.email u <> UserCreate.email carol) /\
  exists new_user token w1,
    signup carol sample_clock sample_world = (Return token, w1) /\
    In new_user (users (db w1)) /\
    User.email new_user = UserCreate.email carol /\
    login {| UserLogin.email := UserCreate.email carol;
             UserLogin.password := UserCreate.password carol |} sample_clock w1 =
      (Return (create_token (User.id new_user) (utcnow sample_clock)), w1) /\
    forall now, now < utcnow sample_clock + 3600 ->
      verify_token (create_token (User.id new_user) (utcnow sample_clock)) now (db w1)
        = Return new_user.
Proof.
  assert (H : forall u, In u (users (db sample_world)) ->
                        User.email u <> UserCreate.email carol).
  { intros u [<- | [<- | []]]; discriminate. }
  split; [exact H |].
  exact (signup_then_login carol sample_clock sample_clock sample_world H).
Defined.

(** X3. With unique emails, a login that names a registered email with
    another password than the stored one fails with 400 "Invalid
    credentials". *)
Theorem login_wrong_password (user : UserLogin.t) (clk : clock) (w : world) (u : User.t) :
  emails_unique (db w) ->
  In u (users (db w)) ->
  User.email u = UserLogin.email user ->
  User.password u <> UserLogin.password user ->
  login user clk w = (Raise InvalidCredentials, w).
Proof.
  intros Huniq Hin He Hp. apply run_login_missing.
  destruct (find _ (users (db w))) as [u' |] eqn:F; [| reflexivity].
  exfalso. apply find_some in F. destruct F as [Hin' Hb].
  apply andb_true_iff in Hb. destruct Hb as [He' Hp'].
  apply String.eqb_eq in He', Hp'.
  assert (u' = u).
  { apply (NoDup_map_injective User.email (users (db w))); try assumption. congruence. }
  subst u'. contradiction.
Qed.

Lemma login_wrong_password_witness :
  emails_unique (db sample_world) /\
  In alice (users (db sample_world)) /\
  User.email alice = "a@x.com" /\
  User.password alice <> "secret2" /\
  login {| UserLogin.email := "a@x.com"; UserLogin.password := "secret2" |}
        sample_clock sample_world = (Raise InvalidCredentials, sample_world).
Proof.
  assert (H1 : emails_unique (db sample_world)).
  { unfold emails_unique. simpl. repeat constructor; simpl; intuition discriminate. }
  assert (H2 : In alice (users (db sample_world))) by (simpl; now left).
  assert (H4 : User.password alice <> "secret2") by discriminate.
  split; [exact H1 | split; [exact H2 | split; [reflexivity | split; [exact H4 |]]]].
  exact (login_wrong_password
           {| UserLogin.email := "a@x.com"; UserLogin.password := "secret2" |}
           sample_clock sample_world alice H1 H2 eq_refl H4).
Defined.

(** ** What verify_token lets through *)

Lemma verify_token_accepted (tok : jwt.token) (now : Z) (d : database) (u : User.t) :
  verify_token tok now d = Return u ->
  In u (users d) /\
  signature_ok tok = true /\
  ~ expired tok now /\
  exists payload, embedded tok = Some payload /\ jwt.sub payload = Some (User.id u).
Proof.
  intros H.
  destruct (bad_signature_dec tok) as [Hm | [Hb | (p & Ep & Hs)]].
  - rewrite (verify_token_malformed _ _ _ Hm) in H. discriminate.
  - rewrite (verify_token_bad_signature _ _ _ Hb) in H. discriminate.
  - unfold verify_token in H. rewrite (decode_signed tok p now Ep Hs) in H.
    assert (Hlive : ~ expired tok now /\
                    exists s user, jwt.sub p = Some s /\
                      find (fun u => User.id u =? s) (users d) = Some user /\ user = u).
    { destruct (jwt.exp p) as [e |] eqn:Ee.
      - destruct (Z.leb_spec e now) as [Hle | Hlt]; [discriminate |].
        split.
        + intros (p' & e' & Ep' & Ee' & Hle).
          assert (p' = p) by congruence. subst p'.
          assert (e' = e) by congruence. lia.
        + destruct (jwt.sub p) as [s |]; [| discriminate].
          destruct (find _ (users d)) as [user |] eqn:F; [| discriminate].
          exists s, user. repeat split; congruence.
      - split.
        + intros (p' & e' & Ep' & Ee' & _). congruence.
        + destruct (jwt.sub p) as [s |]; [| discriminate].
          destruct (find _ (users d)) as [user |] eqn:F; [| discriminate].
          exists s, user. repeat split; congruence. }
    destruct Hlive as (Hne & s & user & Es & F & ->).
    apply find_pk_In in F. destruct F as [Hin Eid].
    repeat split; try assumption.
    exists p. split; [assumption | congruence].
Qed.

(** X4. A token that verify_token accepts is well-formed and correctly
    signed, has not expired, and names in its subject the id of the user
    returned, who is a row of the users table. *)
Theorem verify_token_sound (tok : jwt.token) (now : Z) (d : database) (u : User.t) :
  verify_token tok now d = Return u ->
  In u (users d) /\
  signature_ok tok = true /\
  ~ expired tok now /\
  exists payload, embedded tok = Some payload /\ jwt.sub payload = Some (User.id u).
Proof. apply verify_token_accepted. Qed.

Lemma verify_token_sound_witness :
  verify_token alice_token 2000 sample_db = Return alice /\
  In alice (users sample_db) /\
  signature_ok alice_token = true /\
  ~ expired alice_token 2000 /\
  exists payload, embedded alice_token = Some payload /\
                  jwt.sub payload = Some (User.id alice).
Proof.
  split; [reflexivity |].
  exact (verify_token_sound alice_token 2000 sample_db alice eq_refl).
Defined.

(** X5. A correctly signed, unexpired token that carries no subject is
    not answered with 401: the lookup of its subject raises KeyError, which
    verify_token does not catch, so each of the three authenticated
    handlers ends in that KeyError, changing nothing. *)
Theorem subjectless_token_unhandled (w : world) (clk : clock) (e : Z) :
  utcnow clk < e ->
  verify_token (subjectless_token e) (utcnow clk) (db w) = Raise KeyError /\
  (forall post, add_post post (subjectless_token e) clk w = (Raise KeyError, w)) /\
  get_posts (subjectless_token e) clk w = (Raise KeyError, w) /\
  (forall postID, delete_post postID (subjectless_token e) clk w = (Raise KeyError, w)).
Proof.
  intros Hlt.
  assert (H : verify_token (subjectless_token e) (utcnow clk) (db w) = Raise KeyError)
    by now apply verify_token_without_subject.
  split; [exact H | split; [| split]].
  - intros post. now apply unauthorized_add_post.
  - now apply unauthorized_get_posts.
  - intros postID. now apply unauthorized_delete_post.
Qed.

Lemma subjectless_token_unhandled_witness :
  utcnow sample_clock < 5000 /\
  verify_token (subjectless_token 5000) (utcnow sample_clock) (db sample_world)
    = Raise KeyError /\
  (forall post, add_post post (subjectless_token 5000) sample_clock sample_world
                = (Raise KeyError, sample_world)) /\
  get_posts (subjectless_token 5000) sample_clock sample_world
    = (Raise KeyError, sample_world) /\
  (forall postID, delete_post postID (subjectless_token 5000) sample_clock sample_world
                  = (Raise KeyError, sample_world)).
Proof.
  assert (H : utcnow sample_clock < 5000) by (simpl; lia).
  split; [exact H |].
  exact (subjectless_token_unhandled sample_world sample_clock 5000 H).
Defined.

(** X6. A request whose token verify_token refuses has no effect: add-post,
    get-posts and delete-post end in the very exception verify_token
    raised, with the database and the cache as they were. *)
Theorem refused_request_changes_nothing (w : world) (token : jwt.token) (clk : clock)
    (e : exn) :
  verify_token token (utcnow clk) (db w) = Raise e ->
  (forall post, add_post post token clk w = (Raise e, w)) /\
  get_posts token clk w = (Raise e, w) /\
  (forall postID, delete_post postID token clk w = (Raise e, w)).
Proof.
  intros H. split; [| split].
  - intros post. now apply unauthorized_add_post.
  - now apply unauthorized_get_posts.
  - intros postID. now apply unauthorized_delete_post.
Qed.

Lemma refused_request_changes_nothing_witness :
  verify_token (jwt.NotJws "garbage") (utcnow sample_clock) (db sample_world)
    = Raise TokenInvalid /\
  (forall post, add_post post (jwt.NotJws "garbage") sample_clock sample_world
                = (Raise TokenInvalid, sample_world)) /\
  get_posts (jwt.NotJws "garbage") sample_clock sample_world
    = (Raise TokenInvalid, sample_world) /\
  (forall postID, delete_post postID (jwt.NotJws "garbage") sample_clock sample_world
                  = (Raise TokenInvalid, sample_world)).
Proof.
  split; [reflexivity |].
  exact (refused_request_changes_nothing sample_world (jwt.NotJws "garbage")
           sample_clock TokenInvalid eq_refl).
Defined.

(** X7. verify_token asks for no expiry: a correctly signed token that
    names a stored user and carries no [exp] resolves to that user at every
    time. *)
Theorem undated_token_never_expires (d : database) (U : User.t) :
  NoDup (map User.id (users d)) -> In U (users d) ->
  forall now, verify_token (undated_token (User.id U)) now d = Return U.
Proof.
  intros Hnd Hin now. unfold verify_token, undated_token.
  rewrite decode_encode. simpl.
  now rewrite (find_pk_unique User.id _ _ Hnd Hin).
Qed.

Lemma undated_token_never_expires_witness :
  NoDup (map User.id (users sample_db)) /\ In alice (users sample_db) /\
  forall now, verify_token (undated_token (User.id alice)) now sample_db = Return alice.
Proof.
  assert (Hnd : NoDup (map User.id (users sample_db))) by exact (proj1 sample_db_wf).
  assert (Hin : In alice (users sample_db)) by (simpl; now left).
  split; [exact Hnd | split; [exact Hin |]].
  exact (undated_token_never_expires sample_db alice Hnd Hin).
Defined.

(** ** What any sequence of requests keeps *)

Lemma verify_token_In (tok : jwt.token) (now : Z) (d : database) (u : User.t) :
  verify_token tok now d = Return u -> In u (users d).
Proof. intros H. exact (proj1 (verify_token_accepted tok now d u H)). Qed.

Lemma db_eta (d : database) : {| users := users d; posts := posts d |} = d.
Proof. now destruct d. Qed.

(** The four things one request can do to the database. *)
Lemma db_serve_cases (r : request) (clk : clock) (w : world) :
  db (serve r clk w) = db w \/
  (exists email password,
     (forall u, In u (users (db w)) -> User.email u <> email) /\
     db (serve r clk w) =
       {| users := users (db w) ++
            [{| User.id := next_rowid (map User.id (users (db w)));
                User.email := email; User.password := password |}];
          posts := posts (db w) |}) \/
  (exists u text,
     In u (users (db w)) /\
     db (serve r clk w) =
       {| users := users (db w);
          posts := posts (db w) ++
            [{| Post.id := next_rowid (map Post.id (posts (db w)));
                Post.text := text; Post.owner_id := User.id u |}] |}) \/
  (exists p,
     In p (posts (db w)) /\
     db (serve r clk w) =
       {| users := users (db w);
          posts := filter (fun q => negb (Post.id q =? Post.id p)) (posts (db w)) |}).
Proof.
  destruct r as [user | user | post token | token | postID token]; simpl.
  - destruct (find (fun u => String.eqb (User.email u) (UserCreate.email user))
                   (users (db w))) as [u |] eqn:F.
    + left. rewrite run_signup_taken; [reflexivity |].
      apply find_some in F. destruct F as [Hin E]. apply String.eqb_eq in E. eauto.
    + right. left.
      assert (Hnew : forall u, In u (users (db w)) ->
                               User.email u <> UserCreate.email user).
      { intros u Hu E. apply (find_none _ _ F) in Hu. simpl in Hu.
        rewrite E, String.eqb_refl in Hu. discriminate. }
      exists (UserCreate.email user), (UserCreate.password user).
      split; [assumption |]. now rewrite (run_signup_new user clk w Hnew).
  - left. now rewrite login_leaves_world.
  - destruct (verify_token token (utcnow clk) (db w)) as [u | e] eqn:H.
    + right. right. left. exists u, (PostCreate.text post).
      split; [now apply verify_token_In in H |].
      now rewrite (run_add_post w token clk u H).
    + left. now rewrite (unauthorized_add_post w token clk post e H).
  - left. destruct (verify_token token (utcnow clk) (db w)) as [u | e] eqn:H.
    + destruct (TTLCache.contains (post_cache w) (User.id u) (monotonic clk)) eqn:Hit.
      * destruct (run_get_posts_hit w token clk u H Hit) as (l & _ & _ & E).
        now rewrite E.
      * destruct (run_get_posts_miss w token clk u H Hit) as (c' & _ & E).
        now rewrite E.
    + now rewrite (unauthorized_get_posts w token clk e H).
  - destruct (verify_token token (utcnow clk) (db w)) as [u | e] eqn:H.
    + destruct (find (fun p => (Post.id p =? postID) && (Post.owner_id p =? User.id u))
                     (posts (db w))) as [p |] eqn:F.
      * right. right. right. exists p.
        split; [now apply find_some in F |].
        now rewrite (run_delete_post_found w token clk u H postID p F).
      * left. now rewrite (run_delete_post_missing w token clk u H postID F).
    + left. now rewrite (unauthorized_delete_post w token clk postID e H).
Qed.

(** A property of the database that every single request keeps holds
    after any sequence of them. *)
Lemma serve_all_keeps (P : database -> Prop) :
  (forall r clk w, P (db w) -> P (db (serve r clk w))) ->
  forall rs w, P (db w) -> P (db (serve_all rs w)).
Proof.
  intros Hstep rs. induction rs as [| [r clk] rs IH]; simpl; intros w H;
    [assumption |].
  apply IH. now apply Hstep.
Qed.

Lemma users_serve_all (rs : list (request * clock)) (w : world) :
  exists added, users (db (serve_all rs w)) = users (db w) ++ added.
Proof.
  revert w. induction rs as [| [r clk] rs IH]; simpl; intros w.
  - exists []. now rewrite app_nil_r.
  - destruct (IH (serve r clk w)) as [added E]. rewrite E.
    destruct (db_serve_cases r clk w)
      as [D | [(e & pw & _ & D) | [(u & txt & _ & D) | (p & _ & D)]]];
      rewrite D; simpl.
    + now exists added.
    + eexists. now rewrite <- app_assoc.
    + now exists added.
    + now exists added.
Qed.

(** X8. Users are only ever added: after any sequence of requests the
    users table is the old one, row for row, followed by the users signed
    up since. *)
Theorem users_only_grow (rs : list (request * clock)) (w : world) :
  exists added, users (db (serve_all rs w)) = users (db w) ++ added.
Proof. apply users_serve_all. Qed.

Lemma db_wf_serve (r : request) (clk : clock) (w : world) :
  db_wf (db w) -> db_wf (db (serve r clk w)).
Proof.
  intros [Hu Hp].
  destruct (db_serve_cases r clk w)
    as [D | [(e & pw & _ & D) | [(u & txt & _ & D) | (p & _ & D)]]];
    rewrite D; split; simpl; try assumption.
  - rewrite map_app. simpl. now apply NoDup_snoc_fresh.
  - rewrite map_app. simpl. now apply NoDup_snoc_fresh.
  - now apply NoDup_map_filter.
Qed.

Lemma db_wf_serve_all (rs : list (request * clock)) (w : world) :
  db_wf (db w) -> db_wf (db (serve_all rs w)).
Proof. apply (serve_all_keeps db_wf). intros r clk w'. apply db_wf_serve. Qed.

(** X9. Primary keys stay unique: if no two users and no two posts share
    an id, the same holds after any sequence of requests. *)
Theorem primary_keys_stay_unique (rs : list (request * clock)) (w : world) :
  db_wf (db w) -> db_wf (db (serve_all rs w)).
Proof. apply db_wf_serve_all. Qed.

Lemma primary_keys_stay_unique_witness :
  db_wf (db sample_world) /\
  db_wf (db (serve_all [(Signup carol, sample_clock);
                        (AddPost {| PostCreate.text := "new" |} alice_token, sample_clock);
                        (DeletePost 1 alice_token, sample_clock)] sample_world)).
Proof.
  split; [exact sample_db_wf |].
  exact (primary_keys_stay_unique _ sample_world sample_db_wf).
Defined.

(** X10. Emails stay unique: signup refuses a taken email and nothing else
    writes the users table, so no sequence of requests makes two users
    share an email. *)
Theorem emails_stay_unique (rs : list (request * clock)) (w : world) :
  emails_unique (db w) -> emails_unique (db (serve_all rs w)).
Proof.
  apply (serve_all_keeps emails_unique). clear. intros r clk w H.
  unfold emails_unique in *.
  destruct (db_serve_cases r clk w)
    as [D | [(e & pw & Hnew & D) | [(u & txt & _ & D) | (p & _ & D)]]];
    rewrite D; simpl; try assumption.
  rewrite map_app. simpl. apply NoDup_app; [assumption | repeat constructor; intros [] |].
  intros a Ha [<- | []]. apply in_map_iff in Ha. destruct Ha as (u & E & Hu).
  now apply (Hnew u).
Qed.

Lemma emails_stay_unique_witness :
  emails_unique (db sample_world) /\
  emails_unique (db (serve_all [(Signup carol, sample_clock);
                                (Signup carol, sample_clock)] sample_world)).
Proof.
  assert (H : emails_unique (db sample_world)).
  { unfold emails_unique. simpl. repeat constructor; simpl; intuition discriminate. }
  split; [exact H |].
  exact (emails_stay_unique _ sample_world H).
Defined.

(** X11. Every post keeps an owner: if each post's owner_id is the id of
    a stored user, the same holds after any sequence of requests (a post
    is only added for the user the token resolved to, and users are never
    removed). *)
Theorem owners_stay_existing (rs : list (request * clock)) (w : world) :
  owners_exist (db w) -> owners_exist (db (serve_all rs w)).
Proof.
  apply (serve_all_keeps owners_exist). clear. intros r clk w H.
  unfold owners_exist in *.
  destruct (db_serve_cases r clk w)
    as [D | [(e & pw & _ & D) | [(u & txt & Hu & D) | (p & _ & D)]]];
    rewrite D; simpl; try assumption.
  - intros q Hq. destruct (H q Hq) as (o & Ho & E).
    exists o. split; [apply in_or_app; now left | assumption].
  - intros q Hq. apply in_app_or in Hq. destruct Hq as [Hq | [<- | []]].
    + now apply H.
    + now exists u.
  - intros q Hq. apply filter_In in Hq. apply H. tauto.
Qed.

Lemma owners_stay_existing_witness :
  owners_exist (db sample_world) /\
  owners_exist (db (serve_all [(AddPost {| PostCreate.text := "new" |} alice_token,
                                sample_clock)] sample_world)).
Proof.
  assert (H : owners_exist (db sample_world)).
  { intros p [<- | [<- | [<- | []]]]; simpl.
    - exists alice. split; [now left | reflexivity].
    - exists bob. split; [right; now left | reflexivity].
    - exists alice. split; [now left | reflexivity]. }
  split; [exact H |].
  exact (owners_stay_existing _ sample_world H).
Defined.

(** X12. A token is not revoked by anything the service does: with
    unique ids, a token issued for a stored user U resolves to U at any
    time before its expiry, after any sequence of requests. *)
Theorem token_survives_requests (rs : list (request * clock)) (w : world)
    (U : User.t) (issued : Z) :
  db_wf (db w) -> In U (users (db w)) ->
  forall now, now < issued + 3600 ->
    verify_token (create_token (User.id U) issued) now (db (serve_all rs w)) = Return U.
Proof.
  intros Hwf Hin now Hnow.
  apply verify_token_issued; [| | assumption].
  - exact (proj1 (db_wf_serve_all rs w Hwf)).
  - destruct (users_serve_all rs w) as [added E]. rewrite E.
    apply in_or_app. now left.
Qed.

Lemma token_survives_requests_witness :
  db_wf (db sample_world) /\ In alice (users (db sample_world)) /\
  forall now, now < 1000 + 3600 ->
    verify_token (create_token (User.id alice) 1000) now
      (db (serve_all [(Signup carol, sample_clock);
                      (DeletePost 1 alice_token, sample_clock)] sample_world))
    = Return alice.
Proof.
  assert (Hin : In alice (users (db sample_world))) by (simpl; now left).
  split; [exact sample_db_wf | split; [exact Hin |]].
  exact (token_survives_requests _ sample_world alice 1000 sample_db_wf Hin).
Defined.

(** ** One user's writes and another user's view *)

Lemma getlink_unlink_other {V : Type} (c : TTLCache.t V) (k k' : Z) :
  k' <> k -> TTLCache.getlink (TTLCache.unlink c k) k' = TTLCache.getlink c k'.
Proof.
  intros Hne. unfold TTLCache.getlink, TTLCache.unlink.
  induction c as [| l c IH]; simpl; [reflexivity |].
  destruct (Z.eqb_spec (TTLCache.key l) k) as [E | N]; simpl.
  - destruct (Z.eqb_spec (TTLCache.key l) k') as [E' | _]; [congruence | exact IH].
  - destruct (TTLCache.key l =? k'); [reflexivity | exact IH].
Qed.

Lemma getlink_pop_other {V : Type} (c : TTLCache.t V) (k k' time : Z) :
  k' <> k -> TTLCache.getlink (TTLCache.pop c k time) k' = TTLCache.getlink c k'.
Proof.
  intros Hne. unfold TTLCache.pop.
  destruct (TTLCache.contains c k time); [now apply getlink_unlink_other | reflexivity].
Qed.

(** X13. A write by one user leaves every other user's view alone: after
    an add-post or a delete-post made with a token that resolves to V, the
    posts of any other user and that user's cache entry are what they
    were. *)
Theorem writes_leave_others_alone (w : world) (token : jwt.token) (clk : clock)
    (V : User.t) (other : Z) :
  db_wf (db w) ->
  verify_token token (utcnow clk) (db w) = Return V ->
  other <> User.id V ->
  (forall post,
     posts_of (db (snd (add_post post token clk w))) other = posts_of (db w) other /\
     TTLCache.getlink (post_cache (snd (add_post post token clk w))) other =
       TTLCache.getlink (post_cache w) other) /\
  (forall postID,
     posts_of (db (snd (delete_post postID token clk w))) other = posts_of (db w) other /\
     TTLCache.getlink (post_cache (snd (delete_post postID token clk w))) other =
       TTLCache.getlink (post_cache w) other).
Proof.
  intros [_ Hp] Hauth Hne. split.
  - intros post. rewrite (run_add_post w token clk V Hauth). simpl. split.
    + rewrite (posts_of_append (db w)). simpl.
      destruct (Z.eqb_spec (User.id V) other); [congruence | reflexivity].
    + now apply getlink_pop_other.
  - intros postID.
    destruct (find (fun p => (Post.id p =? postID) && (Post.owner_id p =? User.id V))
                   (posts (db w))) as [p |] eqn:F.
    + rewrite (run_delete_post_found w token clk V Hauth postID p F). simpl.
      apply find_some in F. destruct F as [Hin Hb].
      apply andb_true_iff in Hb. destruct Hb as [_ Ho]. apply Z.eqb_eq in Ho.
      split; [| now apply getlink_pop_other].
      apply (posts_of_delete_other (db w) p other Hp Hin). congruence.
    + rewrite (run_delete_post_missing w token clk V Hauth postID F). now split.
Qed.

Lemma writes_leave_others_alone_witness :
  db_wf (db sample_world) /\
  verify_token alice_token (utcnow sample_clock) (db sample_world) = Return alice /\
  User.id bob <> User.id alice /\
  (forall post,
     posts_of (db (snd (add_post post alice_token sample_clock sample_world))) (User.id bob)
       = posts_of (db sample_world) (User.id bob) /\
     TTLCache.getlink
       (post_cache (snd (add_post post alice_token sample_clock sample_world))) (User.id bob)
       = TTLCache.getlink (post_cache sample_world) (User.id bob)) /\
  (forall postID,
     posts_of (db (snd (delete_post postID alice_token sample_clock sample_world)))
              (User.id bob)
       = posts_of (db sample_world) (User.id bob) /\
     TTLCache.getlink
       (post_cache (snd (delete_post postID alice_token sample_clock sample_world)))
       (User.id bob)
       = TTLCache.getlink (post_cache sample_world) (User.id bob)).
Proof.
  assert (Hne : User.id bob <> User.id alice) by discriminate.
  split; [exact sample_db_wf | split; [reflexivity | split; [exact Hne |]]].
  exact (writes_leave_others_alone sample_world alice_token sample_clock alice
           (User.id bob) sample_db_wf eq_refl Hne).
Defined.

(** ** Deleting, and the numbers of posts *)

Lemma find_after_delete (ps : list Post.t) (postID owner : Z) :
  find (fun p => (Post.id p =? postID) && (Post.owner_id p =? owner))
       (filter (fun q => negb (Post.id q =? postID)) ps) = None.
Proof.
  induction ps as [| q ps IH]; simpl; [reflexivity |].
  destruct (Z.eqb_spec (Post.id q) postID) as [E | N]; simpl; [exact IH |].
  destruct (Z.eqb_spec (Post.id q) postID); [contradiction | exact IH].
Qed.

(** X14. A post is deleted once: after delete-post has succeeded for
    number P, a further delete-post of P never succeeds, and with a token
    that verifies it answers 404 "Post not found" and changes nothing. *)
Theorem delete_post_once (w w' : world) (token : jwt.token) (clk : clock)
    (postID : Z) (detail : string) :
  delete_post postID token clk w = (Return detail, w') ->
  forall token' clk',
    (forall d, fst (delete_post postID token' clk' w') <> Return d) /\
    (forall U', verify_token token' (utcnow clk') (db w') = Return U' ->
                delete_post postID token' clk' w' = (Raise PostNotFound, w')).
Proof.
  intros Hrun token' clk'.
  assert (Hgone : forall owner,
             find (fun p => (Post.id p =? postID) && (Post.owner_id p =? owner))
                  (posts (db w')) = None).
  { destruct (verify_token token (utcnow clk) (db w)) as [u | e] eqn:H.
    - destruct (find (fun p => (Post.id p =? postID) && (Post.owner_id p =? User.id u))
                     (posts (db w))) as [p |] eqn:F.
      + rewrite (run_delete_post_found w token clk u H postID p F) in Hrun.
        inversion Hrun; subst. simpl. intros owner.
        apply find_some in F. destruct F as [_ Hb].
        apply andb_true_iff in Hb. destruct Hb as [Hi _]. apply Z.eqb_eq in Hi.
        rewrite Hi. apply find_after_delete.
      + rewrite (run_delete_post_missing w token clk u H postID F) in Hrun.
        discriminate.
    - rewrite (unauthorized_delete_post w token clk postID e H) in Hrun. discriminate. }
  split.
  - intros d.
    destruct (verify_token token' (utcnow clk') (db w')) as [u | e] eqn:H.
    + rewrite (run_delete_post_missing w' token' clk' u H postID (Hgone _)). discriminate.
    + rewrite (unauthorized_delete_post w' token' clk' postID e H). discriminate.
  - intros U' H. exact (run_delete_post_missing w' token' clk' U' H postID (Hgone _)).
Qed.

Lemma delete_post_once_witness :
  delete_post 1 alice_token sample_clock sample_world =
    (Return "Post deleted", snd (delete_post 1 alice_token sample_clock sample_world)) /\
  forall token' clk',
    (forall d, fst (delete_post 1 token' clk'
                      (snd (delete_post 1 alice_token sample_clock sample_world)))
               <> Return d) /\
    (forall U',
       verify_token token' (utcnow clk')
         (db (snd (delete_post 1 alice_token sample_clock sample_world))) = Return U' ->
       delete_post 1 token' clk'
         (snd (delete_post 1 alice_token sample_clock sample_world)) =
       (Raise PostNotFound, snd (delete_post 1 alice_token sample_clock sample_world))).
Proof.
  split; [reflexivity |].
  exact (delete_post_once sample_world _ alice_token sample_clock 1 "Post deleted" eq_refl).
Defined.

(** X15. Post numbers are handed out again: add-post answers a number
    larger than that of every stored post, and when the post just added is
    deleted the posts table is back to what it was, so the next add-post
    answers the same number. *)
Theorem post_number_reused (w : world) (token : jwt.token) (clk1 clk2 clk3 : clock)
    (U : User.t) (post post' : PostCreate.t) :
  verify_token token (utcnow clk1) (db w) = Return U ->
  verify_token token (utcnow clk2) (db w) = Return U ->
  verify_token token (utcnow clk3) (db w) = Return U ->
  exists n w1 w2 w3,
    add_post post token clk1 w = (Return n, w1) /\
    (forall p, In p (posts (db w)) -> Post.id p < n) /\
    delete_post n token clk2 w1 = (Return "Post deleted", w2) /\
    users (db w2) = users (db w) /\
    posts (db w2) = posts (db w) /\
    add_post post' token clk3 w2 = (Return n, w3).
Proof.
  intros H1 H2 H3.
  set (n := next_rowid (map Post.id (posts (db w)))).
  set (row := {| Post.id := n; Post.text := PostCreate.text post;
                 Post.owner_id := User.id U |}).
  set (w1 := {| db := {| users := users (db w); posts := posts (db w) ++ [row] |};
                post_cache := TTLCache.pop (post_cache w) (User.id U) (monotonic clk1) |}).
  assert (Hbelow : forall p, In p (posts (db w)) -> Post.id p < n).
  { intros p Hp. apply next_rowid_above. now apply in_map. }
  assert (Hfilter : filter (fun q => negb (Post.id q =? Post.id row)) (posts (db w1))
                    = posts (db w)).
  { simpl. rewrite filter_app. simpl. rewrite Z.eqb_refl. simpl. rewrite app_nil_r.
    apply forallb_filter_id. apply forallb_forall. intros q Hq.
    apply negb_true_iff, Z.eqb_neq. specialize (Hbelow q Hq). lia. }
  assert (H2' : verify_token token (utcnow clk2) (db w1) = Return U)
    by (rewrite <- H2; now apply verify_token_users).
  assert (F : find (fun p => (Post.id p =? n) && (Post.owner_id p =? User.id U))
                   (posts (db w1)) = Some row).
  { simpl. apply find_snoc_first.
    - intros q Hq. specialize (Hbelow q Hq).
      destruct (Z.eqb_spec (Post.id q) n); [lia | reflexivity].
    - simpl. now rewrite !Z.eqb_refl. }
  pose proof (run_delete_post_found w1 token clk2 U H2' n row F) as Hdel.
  rewrite Hfilter in Hdel.
  set (w2 := {| db := {| users := users (db w1); posts := posts (db w) |};
                post_cache := TTLCache.pop (post_cache w1) (User.id U) (monotonic clk2) |})
    in Hdel.
  assert (H3' : verify_token token (utcnow clk3) (db w2) = Return U)
    by (rewrite <- H3; now apply verify_token_users).
  exists n, w1, w2. eexists.
  split; [exact (run_add_post w token clk1 U H1 post) |].
  split; [exact Hbelow |].
  split; [exact Hdel |].
  split; [reflexivity | split; [reflexivity |]].
  exact (run_add_post w2 token clk3 U H3' post').
Qed.

Lemma post_number_reused_witness :
  verify_token alice_token (utcnow sample_clock) (db sample_world) = Return alice /\
  exists n w1 w2 w3,
    add_post {| PostCreate.text := "one" |} alice_token sample_clock sample_world
      = (Return n, w1) /\
    (forall p, In p (posts (db sample_world)) -> Post.id p < n) /\
    delete_post n alice_token sample_clock w1 = (Return "Post deleted", w2) /\
    users (db w2) = users (db sample_world) /\
    posts (db w2) = posts (db sample_world) /\
    add_post {| PostCreate.text := "two" |} alice_token sample_clock w2 = (Return n, w3).
Proof.
  split; [reflexivity |].
  exact (post_number_reused sample_world alice_token sample_clock sample_clock sample_clock
           alice {| PostCreate.text := "one" |} {| PostCreate.text := "two" |}
           eq_refl eq_refl eq_refl).
Defined.

(** ** Reading through the cache *)

Lemma getlink_moved {V : Type} (c : TTLCache.t V) (k : Z) (l : TTLCache.link V) :
  TTLCache.getlink c k = Some l ->
  TTLCache.getlink (TTLCache.unlink c k ++ [l]) k = Some l.
Proof.
  intros G. pose proof (getlink_In c k l G) as [_ Hk].
  rewrite <- Hk. apply getlink_snoc. rewrite Hk. apply getlink_unlink.
Qed.

Lemma unlink_absent {V : Type} (c : TTLCache.t V) (k : Z) :
  ~ In k (map TTLCache.key c) -> TTLCache.unlink c k = c.
Proof.
  intros Hk. unfold TTLCache.unlink. apply forallb_filter_id, forallb_forall.
  intros l Hl. apply negb_true_iff, Z.eqb_neq. intros E. apply Hk.
  rewrite <- E. now apply in_map.
Qed.



(** X17. Reading does not prolong an entry: after get-posts has served a
    user from the cache, that user's entry is in the cache at exactly the
    times it was before, so a list stored at one time is served for 300
    seconds however often it is read. *)
Theorem cache_hit_keeps_expiry (w : world) (token : jwt.token) (clk : clock) (U : User.t) :
  verify_token token (utcnow clk) (db w) = Return U ->
  TTLCache.contains (post_cache w) (User.id U) (monotonic clk) = true ->
  TTLCache.getlink (post_cache (snd (get_posts token clk w))) (User.id U) =
    TTLCache.getlink (post_cache w) (User.id U) /\
  forall time,
    TTLCache.contains (post_cache (snd (get_posts token clk w))) (User.id U) time =
    TTLCache.contains (post_cache w) (User.id U) time.
Proof.
  intros Hauth Hit.
  destruct (run_get_posts_hit w token clk U Hauth Hit) as (l & G & _ & E).
  rewrite E. simpl.
  assert (G' : TTLCache.getlink (TTLCache.unlink (post_cache w) (User.id U) ++ [l])
                                (User.id U) = TTLCache.getlink (post_cache w) (User.id U))
    by (rewrite G; now apply getlink_moved).
  split; [exact G' |].
  intros time. unfold TTLCache.contains. now rewrite G'.
Qed.

Lemma cache_hit_keeps_expiry_witness :
  verify_token alice_token (utcnow sample_clock) (db sample_world) = Return alice /\
  TTLCache.contains (post_cache sample_world) (User.id alice) (monotonic sample_clock)
    = true /\
  TTLCache.getlink
    (post_cache (snd (get_posts alice_token sample_clock sample_world))) (User.id alice) =
    TTLCache.getlink (post_cache sample_world) (User.id alice) /\
  forall time,
    TTLCache.contains
      (post_cache (snd (get_posts alice_token sample_clock sample_world)))
      (User.id alice) time =
    TTLCache.contains (post_cache sample_world) (User.id alice) time.
Proof.
  split; [reflexivity | split; [reflexivity |]].
  exact (cache_hit_keeps_expiry sample_world alice_token sample_clock alice
           eq_refl eq_refl).
Defined.

(** X18. The cache puts out its least recently used entry: when 100
    entries are cached, all of them live, and get-posts serves a user who
    is not among them, the entry at the least recently used end goes, the
    other 99 keep their order, and the new list is stored at the most
    recently used end. *)
Theorem get_posts_evicts_least_recent (w : world) (token : jwt.token) (clk : clock)
    (U : User.t) (oldest : TTLCache.link (list Post.t))
    (others : TTLCache.t (list Post.t)) :
  verify_token token (utcnow clk) (db w) = Return U ->
  post_cache w = oldest :: others ->
  Z.of_nat (List.length (post_cache w)) = 100 ->
  (forall l, In l (post_cache w) -> monotonic clk < TTLCache.expires l) ->
  ~ In (User.id U) (map TTLCache.key (post_cache w)) ->
  post_cache (snd (get_posts token clk w)) =
    others ++ [{| TTLCache.key := User.id U;
                  TTLCache.value := posts_of (db w) (User.id U);
                  TTLCache.expires := monotonic clk + 300 |}].
Proof.
  intros Hauth Hc Hfull Hlive Hnew.
  assert (Hmiss : TTLCache.contains (post_cache w) (User.id U) (monotonic clk) = false).
  { unfold TTLCache.contains. apply getlink_None in Hnew. now rewrite Hnew. }
  destruct (run_get_posts_miss w token clk U Hauth Hmiss) as (c' & Hset & E).
  rewrite E. simpl. revert Hset. unfold TTLCache.setitem, TTLCache.expire.
  assert (Hall : forallb (fun l => monotonic clk <? TTLCache.expires l) (post_cache w) = true).
  { apply forallb_forall. intros l Hl. apply Z.ltb_lt. now apply Hlive. }
  rewrite (forallb_filter_id _ _ Hall).
  destruct (maxsize <? 1); [discriminate |].
  pose proof Hnew as Hnone. apply getlink_None in Hnone. rewrite Hnone.
  rewrite Hc in *. rewrite (make_room_full maxsize oldest others Hfull).
  rewrite unlink_absent.
  - intros Hset. inversion Hset. reflexivity.
  - intros Hin. apply Hnew. simpl. now right.
Qed.

Lemma get_posts_evicts_least_recent_witness :
  verify_token zed_token (utcnow late_clock) (db full_world) = Return zed /\
  post_cache full_world =
    {| TTLCache.key := 0; TTLCache.value := []; TTLCache.expires := 1000 |}
    :: tl full_cache /\
  Z.of_nat (List.length (post_cache full_world)) = 100 /\
  (forall l, In l (post_cache full_world) -> monotonic late_clock < TTLCache.expires l) /\
  ~ In (User.id zed) (map TTLCache.key (post_cache full_world)) /\
  post_cache (snd (get_posts zed_token late_clock full_world)) =
    tl full_cache ++ [{| TTLCache.key := User.id zed;
                         TTLCache.value := posts_of (db full_world) (User.id zed);
                         TTLCache.expires := monotonic late_clock + 300 |}].
Proof.
  assert (H2 : post_cache full_world =
               {| TTLCache.key := 0; TTLCache.value := []; TTLCache.expires := 1000 |}
               :: tl full_cache) by reflexivity.
  assert (H3 : Z.of_nat (List.length (post_cache full_world)) = 100)
    by exact (proj2 full_cache_wf).
  assert (H4 : forall l, In l (post_cache full_world) ->
                         monotonic late_clock < TTLCache.expires l).
  { intros l Hl. change (In l full_cache) in Hl.
    unfold full_cache in Hl. apply in_map_iff in Hl.
    destruct Hl as (i & <- & _). simpl. lia. }
  assert (H5 : ~ In (User.id zed) (map TTLCache.key (post_cache full_world))).
  { change (~ In 100 (map TTLCache.key full_cache)).
    unfold full_cache. rewrite map_map. simpl TTLCache.key. intros H.
    apply in_map_iff in H. destruct H as (i & E & Hi). apply in_seq in Hi. lia. }
  split; [reflexivity | split; [exact H2 | split; [exact H3 | split; [exact H4 |]]]].
  split; [exact H5 |].
  exact (get_posts_evicts_least_recent full_world zed_token late_clock zed _ _
           eq_refl H2 H3 H4 H5).
Defined.

(** ** The cache along any sequence of requests *)

Lemma cache_serve_cases (r : request) (clk : clock) (w : world) :
  post_cache (serve r clk w) = post_cache w \/
  (exists k, post_cache (serve r clk w) = TTLCache.pop (post_cache w) k (monotonic clk)) \/
  (exists k, post_cache (serve r clk w) =
             snd (TTLCache.getitem (post_cache w) k (monotonic clk))) \/
  (exists k v, TTLCache.setitem maxsize ttl (post_cache w) k v (monotonic clk) =
               Some (post_cache (serve r clk w))).
Proof.
  destruct r as [user | user | post token | token | postID token]; simpl.
  - left. unfold signup, bind, query_user_by_email.
    now destruct (find _ (users (db w))).
  - left. now rewrite login_leaves_world.
  - destruct (verify_token token (utcnow clk) (db w)) as [u | e] eqn:H.
    + right. left. exists (User.id u). now rewrite (run_add_post w token clk u H).
    + left. now rewrite (unauthorized_add_post w token clk post e H).
  - destruct (verify_token token (utcnow clk) (db w)) as [u | e] eqn:H.
    + destruct (TTLCache.contains (post_cache w) (User.id u) (monotonic clk)) eqn:Hit.
      * right. right. left. exists (User.id u).
        destruct (run_get_posts_hit w token clk u H Hit) as (l & G & _ & E).
        destruct (getitem_hit _ _ _ Hit) as (l' & G' & _ & E').
        rewrite E, E'. simpl. congruence.
      * right. right. right.
        destruct (run_get_posts_miss w token clk u H Hit) as (c' & Hset & E).
        exists (User.id u), (posts_of (db w) (User.id u)). now rewrite E.
    + left. now rewrite (unauthorized_get_posts w token clk e H).
  - destruct (verify_token token (utcnow clk) (db w)) as [u | e] eqn:H.
    + destruct (find (fun p => (Post.id p =? postID) && (Post.owner_id p =? User.id u))
                     (posts (db w))) as [p |] eqn:F.
      * right. left. exists (User.id u).
        now rewrite (run_delete_post_found w token clk u H postID p F).
      * left. now rewrite (run_delete_post_missing w token clk u H postID F).
    + left. now rewrite (unauthorized_delete_post w token clk postID e H).
Qed.

(** X19. The cache stays within its bound whatever is asked of the
    service: a cache with one entry per user and at most 100 entries is
    still one after any sequence of requests, with any clocks. *)
Theorem cache_stays_bounded (rs : list (request * clock)) (w : world) :
  cache_wf (post_cache w) ->
  cache_wf (post_cache (serve_all rs w)) /\
  Z.of_nat (List.length (post_cache (serve_all rs w))) <= 100.
Proof.
  intros Hwf.
  assert (H : cache_wf (post_cache (serve_all rs w))).
  { revert w Hwf. induction rs as [| [r clk] rs IH]; simpl; intros w Hwf;
      [assumption |].
    apply IH.
    destruct (cache_serve_cases r clk w) as [E | [(k & E) | [(k & E) | (k & v & E)]]].
    - now rewrite E.
    - rewrite E. now apply cache_wf_pop.
    - rewrite E. now apply cache_wf_getitem.
    - exact (cache_wf_setitem _ _ _ _ _ Hwf E). }
  split; [exact H | exact (proj2 H)].
Qed.

Lemma cache_stays_bounded_witness :
  cache_wf (post_cache full_world) /\
  cache_wf (post_cache (serve_all [(GetPosts zed_token, late_clock);
                                   (Signup carol, late_clock);
                                   (GetPosts zed_token, late_clock)] full_world)) /\
  Z.of_nat (List.length
              (post_cache (serve_all [(GetPosts zed_token, late_clock);
                                      (Signup carol, late_clock);
                                      (GetPosts zed_token, late_clock)] full_world)))
    <= 100.
Proof.
  split; [exact (proj1 full_cache_wf) |].
  exact (cache_stays_bounded _ full_world (proj1 full_cache_wf)).
Defined.

(** ** What signup and get-posts leave alone *)

(** X20. Signup writes the users table only, and get-posts writes the
    cache only: whatever they answer, signup leaves the posts and the cache
    as they were, and get-posts leaves the users and the posts as they
    were. *)
Theorem signup_and_get_posts_frame (w : world) (clk : clock) :
  (forall user,
     posts (db (snd (signup user clk w))) = posts (db w) /\
     post_cache (snd (signup user clk w)) = post_cache w) /\
  (forall token, db (snd (get_posts token clk w)) = db w).
Proof.
  split.
  - intros user. unfold signup, bind, query_user_by_email.
    now destruct (find _ (users (db w))).
  - intros token.
    destruct (verify_token token (utcnow clk) (db w)) as [u | e] eqn:H.
    + destruct (TTLCache.contains (post_cache w) (User.id u) (monotonic clk)) eqn:Hit.
      * destruct (run_get_posts_hit w token clk u H Hit) as (l & _ & _ & E).
        now rewrite E.
      * destruct (run_get_posts_miss w token clk u H Hit) as (c' & _ & E).
        now rewrite E.
    + now rewrite (unauthorized_get_posts w token clk e H).
Qed.

(** ** The hour of a token, to the second *)

(** X21. A token issued for a stored user is good for exactly one hour:
    with unique ids, verify_token resolves it to that user at every time
    before the issue time plus 3600 seconds, and refuses it as expired from
    that very second on. *)
Theorem token_valid_exactly_one_hour (d : database) (U : User.t) (issued now : Z) :
  NoDup (map User.id (users d)) -> In U (users d) ->
  (verify_token (create_token (User.id U) issued) now d = Return U <->
   now < issued + 3600) /\
  (verify_token (create_token (User.id U) issued) now d = Raise TokenExpired <->
   issued + 3600 <= now).
Proof.
  intros Hnd Hin.
  destruct (Z.lt_ge_cases now (issued + 3600)) as [Hlt | Hge].
  - rewrite (verify_token_issued d U issued now Hnd Hin Hlt).
    split; split; try tauto; try discriminate. intros H. lia.
  - rewrite (verify_token_issued_expired d (User.id U) issued now Hge).
    split; split; try tauto; try discriminate. intros H. lia.
Qed.

Lemma token_valid_exactly_one_hour_witness :
  NoDup (map User.id (users sample_db)) /\ In alice (users sample_db) /\
  (verify_token (create_token (User.id alice) 1000) 4600 sample_db = Return alice <->
   4600 < 1000 + 3600) /\
  (verify_token (create_token (User.id alice) 1000) 4600 sample_db = Raise TokenExpired <->
   1000 + 3600 <= 4600).
Proof.
  assert (Hnd : NoDup (map User.id (users sample_db))) by exact (proj1 sample_db_wf).
  assert (Hin : In alice (users sample_db)) by (simpl; now left).
  split; [exact Hnd | split; [exact Hin |]].
  exact (token_valid_exactly_one_hour sample_db alice 1000 4600 Hnd Hin).
Defined.
